(** * docker-map: container maps, dependency merging and the stop / exec runners

    A shallow embedding of
      - [dockermap/map/container.py]  ([ContainerDependencyResolver], [ContainerMap]),
      - [dockermap/map/runner/signal_stop.py]  ([SignalMixin]),
      - [dockermap/map/runner/cmd.py]  ([ExecMixin]),
    followed by the properties the specification states about them. *)

From Stdlib Require Import String Ascii List ZArith Lia Permutation.
From stdpp Require Import base option list gmap strings sets.

Local Open Scope string_scope.
Local Open Scope list_scope.

(** ** Results and exceptions *)

(** The exceptions that occur in the embedded code.  [Timeout] stands for an
    instance of [requests.exceptions.Timeout] (or of a subclass), the one
    class [signal_stop] catches; [OtherError cls msg] for an instance of any
    other class, named [cls]. *)
Inductive exn : Type :=
| ValueError (msg : string)
| KeyError (key : string)
| TypeError (msg : string)
| Timeout
| OtherError (cls msg : string).

Definition exn_class (e : exn) : string :=
  match e with
  | ValueError _ => "ValueError"
  | KeyError _ => "KeyError"
  | TypeError _ => "TypeError"
  | Timeout => "Timeout"
  | OtherError cls _ => cls
  end.

Inductive result (A : Type) : Type :=
| Return (a : A)
| Raise (e : exn).
Arguments Return {A} a.
Arguments Raise {A} e.

(** [r] is an exception of the class named [cls]. *)
Definition raises {A} (r : result A) (cls : string) : Prop :=
  ∃ e, r = Raise e ∧ exn_class e = cls.

(** ** Python sets

    A Python [set] is represented by its members listed without repetition,
    in the order in which they were first inserted.  The order in which
    iteration visits the members is decided by the interpreter (hash values
    and table layout), not by the program; it is a parameter [set_iter] of
    every definition that iterates over a set, constrained only to visit
    each member exactly once. *)

Module PySet.
Section PySet.
Context {A : Type} `{EqDecision A}.

(** [set(xs)]: the distinct elements of [xs], first occurrence first. *)
Fixpoint distinct_from (seen xs : list A) : list A :=
  match xs with
  | [] => []
  | x :: r =>
      if decide (x ∈ seen) then distinct_from seen r
      else x :: distinct_from (x :: seen) r
  end.

Definition of_list (xs : list A) : list A := distinct_from [] xs.

(** [s.difference(other)] and [s - other]. *)
Definition difference (s other : list A) : list A :=
  filter (λ x, x ∉ other) s.

(** [s.union(other)]. *)
Definition union (s other : list A) : list A :=
  s ++ distinct_from s other.

(** The contract every iteration order meets. *)
Definition iteration_order (set_iter : list A → list A) : Prop :=
  ∀ s, set_iter s ≡ₚ s.
End PySet.
End PySet.

(** ** [ContainerDependencyResolver.merge_dependency] *)

Module Resolver.
Section Resolver.
Context {A : Type} `{EqDecision A}.

(** Iteration order of the sets built in [merge_dependency]. *)
Variable set_iter : list A → list A.

(** [resolve_parent] returns a list, or [None]; both [None] and the empty
    list are falsy in [if parent_dep:]. *)
Definition truthy (parent_dep : option (list A)) : bool :=
  match parent_dep with
  | Some (_ :: _) => true
  | _ => false
  end.

Definition children (parent_dep : option (list A)) : list A :=
  default [] parent_dep.

(** One turn of the loop body:
<<
    parent_dep = resolve_parent(parent)
    if parent_dep:
        dep.extend(set(parent_dep).difference(dep))
>> *)
Definition merge_step (resolve_parent : A → option (list A))
    (dep : list A) (parent : A) : list A :=
  let parent_dep := resolve_parent parent in
  if truthy parent_dep
  then dep ++ set_iter (PySet.difference (PySet.of_list (children parent_dep)) dep)
  else dep.

(** [dep = list(parents)], then the loop over [parents], then [return dep]. *)
Definition merge_dependency (item : A) (resolve_parent : A → option (list A))
    (parents : list A) : list A :=
  foldl (merge_step resolve_parent) parents parents.

(** The merge as the specification words it: every child of every parent,
    taken in the order given, is appended exactly when it is not yet in the
    list. *)
Definition append_new (dep : list A) (child : A) : list A :=
  if decide (child ∈ dep) then dep else dep ++ [child].

Definition first_seen_merge (resolve_parent : A → option (list A))
    (parents : list A) : list A :=
  foldl (λ dep parent, foldl append_new dep (children (resolve_parent parent)))
        parents parents.

(** What the code guarantees whatever the iteration order: starting from the
    list so far, each parent in turn contributes one block holding exactly
    the members of its resolved dependencies that the list lacks, each
    once. *)
Inductive merged (resolve_parent : A → option (list A)) :
    list A → list A → list A → Prop :=
| merged_done dep : merged resolve_parent dep [] dep
| merged_parent dep parent rest block result :
    NoDup block →
    (∀ x, x ∈ block ↔ x ∈ children (resolve_parent parent) ∧ x ∉ dep) →
    merged resolve_parent (dep ++ block) rest result →
    merged resolve_parent dep (parent :: rest) result.
End Resolver.
End Resolver.

(** ** [ContainerMap] *)

Module Map.

(** Modelled from the spec: the assignment records.  [dockermap/map/assignment.py]
    is not under src/; the fields are those of the specification's data
    model (section 3) that [container.py] reads ([instances], [shares],
    [binds] with their [volume], [uses], [attaches], [links_to] with their
    [container]) together with [networks].  A [uses] entry is the name
    itself: [container.py] looks it up and collects it as such. *)
Record HostBind : Type := { volume : string; readonly : bool }.

Record ContainerLink : Type := { container : string; alias : option string }.

Record ContainerAssignment : Type := {
  image : option string;
  instances : list string;
  shares : list string;
  binds : list HostBind;
  uses : list string;
  attaches : list string;
  links_to : list ContainerLink;
  networks : list string;
}.

(** [ContainerAssignment()]: every attribute empty. *)
Definition empty_assignment : ContainerAssignment :=
  {| image := None; instances := []; shares := []; binds := []; uses := [];
     attaches := []; links_to := []; networks := [] |}.

(** The state of a [ContainerMap] object.  [_map] lists the container
    assignments in the order in which iterating the map ([for c_name,
    c_assignment in self]) yields them. *)
Record ContainerMap : Type := {
  _name : string;
  _host : gmap string string;
  _volumes : gmap string string;
  _map : list (string * ContainerAssignment);
}.

(** What [get] and [get_existing] hand back. *)
Inductive item : Type :=
| HostItem (host : gmap string string)
| VolumesItem (volumes : gmap string string)
| AssignmentItem (assignment : ContainerAssignment)
| NoneItem.

(** [dict.get] on [_map]. *)
Fixpoint map_get (l : list (string * ContainerAssignment)) (key : string) :
    option ContainerAssignment :=
  match l with
  | [] => None
  | (k, v) :: r => if decide (k = key) then Some v else map_get r key
  end.

Definition keys (d : gmap string string) : list string := (map_to_list d).*1.

(** *** [cname] *)

Definition cname (self : ContainerMap) (container : string)
    (instance : option string) : string :=
  match instance with
  | Some i =>
      if decide (i = "") then String.concat "." [_name self; container]
      else String.concat "." [_name self; container; i]
  | None => String.concat "." [_name self; container]
  end.

(** *** [get] and [get_existing] *)

Section get.
(** [DictMap.get], reached through [super(ContainerMap, self).get(item)];
    [dockermap/map/__init__.py] is not under src/. *)
Variable DictMap_get : ContainerMap → string → item * ContainerMap.

Definition get (self : ContainerMap) (name : string) : item * ContainerMap :=
  if decide (name = "host") then (HostItem (_host self), self)
  else if decide (name = "volumes") then (VolumesItem (_volumes self), self)
  else DictMap_get self name.

Definition get_existing (self : ContainerMap) (name : string) : item * ContainerMap :=
  if decide (name = "host") then (HostItem (_host self), self)
  else if decide (name = "volumes") then (VolumesItem (_volumes self), self)
  else (from_option AssignmentItem NoneItem (map_get (_map self) name), self).
End get.

(** *** [dependency_items] *)

(** [dict((attaches, c_name) for c_name, c_assignment in self
          for attaches in c_assignment.attaches)]: a later pair replaces an
    earlier one with the same key. *)
Definition attached_pairs (self : ContainerMap) : list (string * string) :=
  flat_map (λ '(c_name, c_assignment),
              map (λ a, (a, c_name)) (attaches c_assignment)) (_map self).

Definition dict_of_pairs (pairs : list (string * string)) : gmap string string :=
  foldl (λ d '(k, v), <[k := v]> d) ∅ pairs.

Definition attached (self : ContainerMap) : gmap string string :=
  dict_of_pairs (attached_pairs self).

Definition dep_set (self : ContainerMap) (c_assignment : ContainerAssignment) :
    gset string :=
  list_to_set (map (λ u, default u (attached self !! u)) (uses c_assignment))
  ∪ list_to_set (map container (links_to c_assignment)).

(** The pairs in the order in which the generator yields them. *)
Definition dependency_items (self : ContainerMap) : list (string * gset string) :=
  flat_map (λ '(c_name, c_assignment),
              let dep_set := dep_set self c_assignment in
              map (λ i, (String.concat "." [c_name; i], dep_set)) (instances c_assignment)
              ++ [(c_name, dep_set)])
           (_map self).

(** *** [check_integrity] *)

Definition _get_instance_names (c_name : string) (instances : list string) :
    list string :=
  match instances with
  | [] => [c_name]
  | _ => map (λ instance, String.concat "." [c_name; instance]) instances
  end.

Record container_items : Type := {
  ci_instances : list string;
  ci_used : list string;
  ci_attached : list string;
  ci_shared : list string;
  ci_binds : list string;
  ci_links : list string;
}.

Definition nonempty {B} (l : list B) : bool :=
  match l with [] => false | _ => true end.

Definition _get_container_items (c_name : string) (c : ContainerAssignment) :
    container_items :=
  let instance_names := _get_instance_names c_name (instances c) in
  let shared := if nonempty (shares c) || nonempty (binds c) then instance_names else [] in
  let bind := map volume (binds c) in
  let link := map container (links_to c) in
  {| ci_instances := instance_names; ci_used := uses c; ci_attached := attaches c;
     ci_shared := shared; ci_binds := bind; ci_links := link |}.

Definition count (name : string) (l : list string) : nat :=
  length (filter (λ y, y = name) l).

Definition message (text names : string) : string :=
  (text ++ names ++ ".")%string.

Section check_integrity.
(** Iteration order of the sets (and of the [Counter]) of names. *)
Variable set_iter : list string → list string.

(** The transposition with [zip] followed by the unpacking into six names
    needs at least one container: with none, [zip()] is empty and the
    unpacking raises
    [ValueError] (worded "need more than 0 values to unpack" by Python 2). *)
Definition check_integrity (self : ContainerMap) (check_duplicates : bool) :
    result unit :=
  let items := map (λ '(k, v), _get_container_items k v) (_map self) in
  match items with
  | [] => Raise (ValueError "need more than 0 values to unpack")
  | _ =>
    let all_instances := map ci_instances items in
    let all_used := map ci_used items in
    let all_attached := map ci_attached items in
    let all_shared := map ci_shared items in
    let all_binds := map ci_binds items in
    let all_links := map ci_links items in
    let volume_shared := concat (all_shared ++ all_attached) in
    let duplicated :=
      filter (λ name, 1 < count name volume_shared)
             (set_iter (PySet.of_list volume_shared)) in
    if check_duplicates && nonempty duplicated then
      Raise (ValueError (message
        "Duplicated shared or attached volumes found with name(s): "
        (String.concat ", " duplicated)))
    else
    let used_set := PySet.of_list (concat all_used) in
    let shared_set := PySet.of_list volume_shared in
    let missing_shares := PySet.difference used_set shared_set in
    if nonempty missing_shares then
      Raise (ValueError (message
        "No shared or attached volumes found for used volume(s): "
        (String.concat ", " (set_iter missing_shares))))
    else
    let binds_set := PySet.of_list (concat all_binds) in
    let host_set := PySet.of_list (keys (_host self)) in
    let missing_binds := PySet.difference binds_set host_set in
    if nonempty missing_binds then
      Raise (ValueError (message
        "No host share found for mapped volume(s): "
        (String.concat ", " (set_iter missing_binds))))
    else
    let volume_set := PySet.union binds_set (concat all_attached) in
    let named_set := PySet.of_list (keys (_volumes self)) in
    let missing_names := PySet.difference volume_set named_set in
    if nonempty missing_names then
      Raise (ValueError (message
        "No volume name-path-assignments found for volume(s): "
        (String.concat ", " (set_iter missing_names))))
    else
    let instance_set := PySet.of_list (concat all_instances) in
    let linked_set := PySet.of_list (concat all_links) in
    let missing_links := PySet.difference linked_set instance_set in
    if nonempty missing_links then
      Raise (ValueError (message
        "No container instance found for link(s): "
        (String.concat ", " (set_iter missing_links))))
    else Return ()
  end.

(** *** [update] and the constructor *)

(** The configuration value stored under one key of the initial dictionary,
    and the [update] methods of the three kinds of assignment, which live in
    modules that are not under src/. *)
Variable raw : Type.
Variable assignment_update : ContainerAssignment → raw → ContainerAssignment.
Variable host_update : gmap string string → raw → gmap string string.
Variable volumes_update : gmap string string → raw → gmap string string.

(** Modelled from the spec: [DictMap.get] for a container name
    ([dockermap/map/__init__.py] is not under src/), after the docstring of
    [get] and section 9, "[get(name)] on the map auto-creates an empty
    assignment": the assignment stored under the name, created empty when
    there is none. *)
Definition DictMap_get (self : ContainerMap) (name : string) : item * ContainerMap :=
  match map_get (_map self) name with
  | Some a => (AssignmentItem a, self)
  | None =>
      (AssignmentItem empty_assignment,
       {| _name := _name self; _host := _host self; _volumes := _volumes self;
          _map := _map self ++ [(name, empty_assignment)] |})
  end.

Fixpoint map_set (l : list (string * ContainerAssignment)) (key : string)
    (a : ContainerAssignment) : list (string * ContainerAssignment) :=
  match l with
  | [] => []
  | (k, v) :: r => if decide (k = key) then (k, a) :: r else (k, v) :: map_set r key a
  end.

(** [self.get(container).update(assignments)]: the object [get] returns is
    the one the map holds, so updating it updates the map. *)
Definition update_entry (self : ContainerMap) (entry : string * raw) : ContainerMap :=
  let '(container, assignments) := entry in
  match get DictMap_get self container with
  | (HostItem h, self') =>
      {| _name := _name self'; _host := host_update h assignments;
         _volumes := _volumes self'; _map := _map self' |}
  | (VolumesItem v, self') =>
      {| _name := _name self'; _host := _host self';
         _volumes := volumes_update v assignments; _map := _map self' |}
  | (AssignmentItem a, self') =>
      {| _name := _name self'; _host := _host self'; _volumes := _volumes self';
         _map := map_set (_map self') container (assignment_update a assignments) |}
  | (NoneItem, self') => self'
  end.

(** [other] is [None] or a dictionary, [kwargs] a dictionary; each is given
    by its items in iteration order. *)
Definition update (self : ContainerMap) (other : option (list (string * raw)))
    (kwargs : list (string * raw)) : ContainerMap :=
  let self := match other with
              | Some d => foldl update_entry self d
              | None => self
              end in
  foldl update_entry self kwargs.

Definition truthy_dict (d : option (list (string * raw))) : bool :=
  match d with Some (_ :: _) => true | _ => false end.

(** The map as [update] leaves it in the constructor. *)
Definition constructed (name : string) (initial : option (list (string * raw)))
    (kwargs : list (string * raw)) : ContainerMap :=
  update {| _name := name; _host := ∅; _volumes := ∅; _map := [] |} initial kwargs.

Definition __init__ (name : string) (initial : option (list (string * raw)))
    (check : bool) (kwargs : list (string * raw)) : result ContainerMap :=
  let self := {| _name := name; _host := ∅; _volumes := ∅; _map := [] |} in
  let self := update self initial kwargs in
  if (truthy_dict initial || nonempty kwargs) && check then
    match check_integrity self true with
    | Raise e => Raise e
    | Return _ => Return self
    end
  else Return self.
End check_integrity.

(** *** The invariants of the specification, section 3 *)

Definition sharing (c : ContainerAssignment) : Prop := shares c ≠ [] ∨ binds c ≠ [].

(** The names under which a container is instantiated, a container's
    shared names, and those of the whole map. *)
Definition instance_names (self : ContainerMap) : list string :=
  flat_map (λ '(c_name, c), _get_instance_names c_name (instances c)) (_map self).

Definition shared_names (self : ContainerMap) : list string :=
  flat_map (λ '(c_name, c),
              if nonempty (shares c) || nonempty (binds c)
              then _get_instance_names c_name (instances c) else [])
           (_map self).

Definition attached_names (self : ContainerMap) : list string :=
  flat_map (λ '(_, c), attaches c) (_map self).

(** Every [uses] entry, every bound volume alias and every link target of
    the map. *)
Definition used_names (self : ContainerMap) : list string :=
  flat_map (λ '(_, c), uses c) (_map self).

Definition bound_names (self : ContainerMap) : list string :=
  flat_map (λ '(_, c), map volume (binds c)) (_map self).

Definition linked_names (self : ContainerMap) : list string :=
  flat_map (λ '(_, c), map container (links_to c)) (_map self).

Definition unique_volumes (self : ContainerMap) : Prop :=
  NoDup (shared_names self ++ attached_names self).

Definition uses_resolve (self : ContainerMap) : Prop :=
  ∀ c_name c u, (c_name, c) ∈ _map self → u ∈ uses c →
    u ∈ shared_names self ∨ u ∈ attached_names self.

Definition binds_in_host (self : ContainerMap) : Prop :=
  ∀ c_name c b, (c_name, c) ∈ _map self → b ∈ binds c →
    is_Some (_host self !! volume b).

Definition aliases_in_volumes (self : ContainerMap) : Prop :=
  ∀ c_name c, (c_name, c) ∈ _map self →
    (∀ a, a ∈ attaches c → is_Some (_volumes self !! a)) ∧
    (∀ b, b ∈ binds c → is_Some (_volumes self !! volume b)).

Definition links_resolve (self : ContainerMap) : Prop :=
  ∀ c_name c l, (c_name, c) ∈ _map self → l ∈ links_to c →
    container l ∈ instance_names self.

Definition integrity (self : ContainerMap) : Prop :=
  unique_volumes self ∧ uses_resolve self ∧ binds_in_host self ∧
  aliases_in_volumes self ∧ links_resolve self.

(** *** The names [check_integrity] reports *)

(** The five lists of offending names, each in terms of the names of the
    whole map. *)
Definition duplicated (set_iter : list string → list string) (self : ContainerMap) :
    list string :=
  filter (λ name, 1 < count name (shared_names self ++ attached_names self))
         (set_iter (PySet.of_list (shared_names self ++ attached_names self))).

Definition missing_shares (self : ContainerMap) : list string :=
  PySet.difference (PySet.of_list (used_names self))
             (PySet.of_list (shared_names self ++ attached_names self)).

Definition missing_binds (self : ContainerMap) : list string :=
  PySet.difference (PySet.of_list (bound_names self)) (PySet.of_list (keys (_host self))).

Definition missing_names (self : ContainerMap) : list string :=
  PySet.difference (PySet.union (PySet.of_list (bound_names self)) (attached_names self))
             (PySet.of_list (keys (_volumes self))).

Definition missing_links (self : ContainerMap) : list string :=
  PySet.difference (PySet.of_list (linked_names self)) (PySet.of_list (instance_names self)).

(** *** The nodes and edges of the specification, section 4.1 *)

(** [node] is the bare container name or one of its instance names. *)
Definition node_of (c_name : string) (c : ContainerAssignment) (node : string) : Prop :=
  node = c_name ∨ ∃ i, i ∈ instances c ∧ node = (c_name ++ "." ++ i)%string.

(** The owner of an attached volume: the container attaching it that the
    iteration over the map meets last. *)
Definition owner (self : ContainerMap) (a : string) : option string :=
  last (flat_map (λ '(c_name, c), if decide (a ∈ attaches c) then [c_name] else [])
                 (_map self)).

(** What a [uses] entry stands for in the edge set. *)
Definition used_node (self : ContainerMap) (u : string) : string :=
  default u (owner self u).

(** The edge set of a container: what its [uses] entries stand for and the
    container side of its [links_to]. *)
Definition direct_deps (self : ContainerMap) (c : ContainerAssignment) : gset string :=
  list_to_set (map (used_node self) (uses c))
  ∪ list_to_set (map container (links_to c)).

(** The edge set as the specification lists it, networks included. *)
Definition direct_deps_with_networks (self : ContainerMap) (c : ContainerAssignment) :
    gset string :=
  direct_deps self c ∪ list_to_set (networks c).

End Map.

(** ** The runner mixins: [signal_stop], [exec_commands], [exec_container_commands] *)

Module Runner.

(** Scalar Python values: signal specifications, timeouts, commands, users, ids. *)
Inductive value : Type :=
| VNone
| VBool (b : bool)
| VInt (z : Z)
| VStr (s : string).

#[global] Instance value_eq_dec : EqDecision value.
Proof. solve_decision. Defined.

(** [not v]. *)
Definition falsy (v : value) : bool :=
  match v with
  | VNone => true
  | VBool b => negb b
  | VInt z => bool_decide (z = 0%Z)
  | VStr s => bool_decide (s = "")
  end.

(** [signal.SIGTERM]. *)
Definition SIGTERM : Z := 15.

(** The calls the mixins make on the daemon client, and what a call hands
    back. *)
Inductive call : Type :=
| stop (kwargs : gmap string value)
| kill (c_name : string) (signal : value)
| wait (c_name : string) (timeout : value)
| exec_create (kwargs : gmap string value)
| exec_start (kwargs : gmap string value).

Inductive response : Type :=
| RNone
| RInt (z : Z)
| RDict (d : gmap string value).

(** [if create_result:]. *)
Definition truthy (r : response) : bool :=
  match r with
  | RNone => false
  | RInt z => negb (bool_decide (z = 0%Z))
  | RDict d => negb (bool_decide (d = ∅))
  end.

Inductive level : Type := DEBUG | WARNING.

(** The signal specifications under which the client's own [stop] is used:
    none configured (a falsy value), SIGTERM by name, SIGTERM by number. *)
Inductive stops_by_default : value → Prop :=
| no_signal sig : falsy sig = true → stops_by_default sig
| SIGTERM_by_name : stops_by_default (VStr "SIGTERM")
| SIGTERM_by_number : stops_by_default (VInt SIGTERM).

Record ExecCommand : Type := { user : value; cmd : value; policy : string }.

(** The attributes of [action.config] the mixins read; [exec_commands] may be
    missing ([None]). *)
Module Config.
Record ContainerConfiguration : Type := {
  stop_signal : value;
  exec_commands : option (list ExecCommand);
}.
End Config.

Section Runner.
(** The daemon behind the client: a call returns or raises, and moves the
    daemon to a new state. *)
Variable daemon : Type.

Record ActionConfig : Type := {
  client : call → daemon → result response * daemon;
  config : Config.ContainerConfiguration;
}.

(** What a run can change: the daemon, the record of the calls made with
    their outcomes, and the log (level and message template). *)
Record world : Type := {
  state : daemon;
  trace : list (call * result response);
  log : list (level * string);
}.

Definition M (B : Type) : Type := world → result B * world.

Definition ret {B} (b : B) : M B := λ w, (Return b, w).

Definition bind {B C} (m : M B) (k : B → M C) : M C :=
  λ w, match m w with
       | (Return b, w') => k b w'
       | (Raise e, w') => (Raise e, w')
       end.

Definition raise {B} (e : exn) : M B := λ w, (Raise e, w).

(** [try: m  except Timeout: handler]. *)
Definition except_Timeout {B} (m : M B) (handler : M B) : M B :=
  λ w, match m w with
       | (Raise Timeout, w') => handler w'
       | other => other
       end.

Definition client_call (action : ActionConfig) (c : call) : M response :=
  λ w, let '(r, d) := client action c (state w) in
       (r, {| state := d; trace := trace w ++ [(c, r)]; log := log w |}).

Definition log_record (l : level) (msg : string) : M unit :=
  λ w, (Return (), {| state := state w; trace := trace w; log := log w ++ [(l, msg)] |}).

(** [create_result['Id']]. *)
Definition subscript (r : response) (key : string) : M value :=
  match r with
  | RDict d => match d !! key with
               | Some v => ret v
               | None => raise (KeyError key)
               end
  | RInt _ => raise (TypeError "'int' object has no attribute '__getitem__'")
  | RNone => raise (TypeError "'NoneType' object has no attribute '__getitem__'")
  end.

Notation "x <- m ;; k" := (bind m (λ x, k))
  (at level 100, m at next level, right associativity).
Notation "m ;; k" := (bind m (λ _, k))
  (at level 100, right associativity).

(** The argument-assembly hooks of the runner, defined outside src/. *)
Variable get_stop_kwargs :
  ActionConfig → string → gmap string value → gmap string value.
Variable get_exec_create_kwargs :
  ActionConfig → string → value → value → gmap string value.
Variable get_exec_start_kwargs :
  ActionConfig → string → value → gmap string value.

Definition signal_stop (action : ActionConfig) (c_name : string)
    (kwargs : gmap string value) : M unit :=
  let sig := Config.stop_signal (config action) in
  let stop_kwargs := get_stop_kwargs action c_name kwargs in
  if falsy sig || bool_decide (sig = VStr "SIGTERM") || bool_decide (sig = VInt SIGTERM)
  then
    except_Timeout
      (client_call action (stop stop_kwargs) ;; ret ())
      (log_record WARNING "Container did not stop in time - sent SIGKILL.")
  else
    log_record DEBUG "Sending signal %s to the container %s and waiting for stop." ;;
    client_call action (kill c_name sig) ;;
    client_call action (wait c_name (default (VInt 10) (stop_kwargs !! "timeout"))) ;;
    ret ().

Fixpoint exec_commands (action : ActionConfig) (c_name : string)
    (run_cmds : list ExecCommand) : M unit :=
  match run_cmds with
  | [] => ret ()
  | run_cmd :: rest =>
      let cmd := cmd run_cmd in
      let cmd_user := user run_cmd in
      log_record DEBUG "Creating exec command in container %s with user %s: %s." ;;
      let ec_kwargs := get_exec_create_kwargs action c_name cmd cmd_user in
      create_result <- client_call action (exec_create ec_kwargs) ;;
      (if truthy create_result then
         e_id <- subscript create_result "Id" ;;
         log_record DEBUG "Starting exec command with id %s." ;;
         let es_kwargs := get_exec_start_kwargs action c_name e_id in
         client_call action (exec_start es_kwargs) ;;
         ret ()
       else
         log_record DEBUG
           "Exec command was created, but did not return an id. Assuming that it has been started.") ;;
      exec_commands action c_name rest
  end.

(** [if not config_cmds: return]: [None] and the empty list alike. *)
Definition exec_container_commands (action : ActionConfig) (c_name : string) : M unit :=
  let config_cmds := Config.exec_commands (config action) in
  match config_cmds with
  | None | Some [] => ret ()
  | Some cmds => exec_commands action c_name cmds
  end.

(** The calls one command contributes to the trace: its [exec_create], and
    the [exec_start] on the id of the create result when there is one. *)
Inductive command_calls (action : ActionConfig) (c_name : string)
    (run_cmd : ExecCommand) : list (call * result response) → Prop :=
| created_not_started create_result :
    truthy create_result = false →
    command_calls action c_name run_cmd
      [(exec_create (get_exec_create_kwargs action c_name (cmd run_cmd) (user run_cmd)),
        Return create_result)]
| created_and_started d e_id start_result :
    d !! "Id" = Some e_id →
    command_calls action c_name run_cmd
      [(exec_create (get_exec_create_kwargs action c_name (cmd run_cmd) (user run_cmd)),
        Return (RDict d));
       (exec_start (get_exec_start_kwargs action c_name e_id), Return start_result)].

(** A client none of whose exec calls raises, and whose non-empty create
    results carry an id. *)
Definition exec_client_returns (action : ActionConfig) : Prop :=
  (∀ kw d, ∃ r d', client action (exec_create kw) d = (Return r, d') ∧
                   (truthy r = true → ∃ dict e_id, r = RDict dict ∧ dict !! "Id" = Some e_id)) ∧
  (∀ kw d, ∃ r d', client action (exec_start kw) d = (Return r, d')).

(** The [exec_create] calls among the entries of a trace. *)
Definition is_exec_create (c : call) : bool :=
  match c with exec_create _ => true | _ => false end.

Definition created (entries : list (call * result response)) : list call :=
  filter (λ c, is_exec_create c = true) entries.*1.
End Runner.
End Runner.

(** ** Sample inputs *)

Module Samples.
Import Map Runner.

(** A web container attached to one network, and a map holding only it. *)
Definition web : ContainerAssignment :=
  {| image := Some "nginx"; instances := []; shares := []; binds := []; uses := [];
     attaches := []; links_to := []; networks := ["backend"] |}.

Definition network_map : ContainerMap :=
  {| _name := "main"; _host := ∅; _volumes := ∅; _map := [("web", web)] |}.

(** The resolved dependencies of the parent ["p"] are ["b"] and ["a"], in
    this order; no other node has any. *)
Definition resolve_p (parent : string) : option (list string) :=
  if decide (parent = "p") then Some ["b"; "a"] else None.

(** A container using a volume that nothing shares or attaches, given as the
    initial data of a map; the configuration value of a key is taken to be
    the assignment itself, and updating to replace what was there. *)
Definition worker : ContainerAssignment :=
  {| image := Some "worker"; instances := []; shares := []; binds := []; uses := ["data"];
     attaches := []; links_to := []; networks := [] |}.

Definition replace_assignment (old new : ContainerAssignment) : ContainerAssignment := new.

Definition keep (d : gmap string string) (new : ContainerAssignment) : gmap string string := d.

Definition worker_only : option (list (string * ContainerAssignment)) :=
  Some [("worker", worker)].

(** A daemon that counts the calls it has served.  Its [stop] times out, and
    its [exec_create] answers with an id unless the command is ["detached"]. *)
Definition counting_client (c : call) (served : nat) : result response * nat :=
  match c with
  | stop _ => (Raise Timeout, S served)
  | kill _ _ => (Return RNone, S served)
  | wait _ _ => (Return (RInt 0), S served)
  | exec_create kw =>
      (Return (if decide (kw !! "cmd" = Some (VStr "detached")) then RNone
               else RDict {[ "Id" := VStr "exec-1" ]}), S served)
  | exec_start _ => (Return RNone, S served)
  end.

Definition action_with (sig : value) (cmds : option (list ExecCommand)) : ActionConfig nat :=
  {| client := counting_client;
     config := {| Config.stop_signal := sig; Config.exec_commands := cmds |} |}.

Definition stop_kwargs_of (action : ActionConfig nat) (c_name : string)
    (kwargs : gmap string value) : gmap string value :=
  <[ "container" := VStr c_name ]> kwargs.

Definition exec_create_kwargs_of (action : ActionConfig nat) (c_name : string)
    (cmd cmd_user : value) : gmap string value :=
  {[ "container" := VStr c_name; "cmd" := cmd; "user" := cmd_user ]}.

Definition exec_start_kwargs_of (action : ActionConfig nat) (c_name : string)
    (e_id : value) : gmap string value :=
  {[ "exec_id" := e_id ]}.

Definition fresh : world nat := {| state := 0; trace := []; log := [] |}.

Definition init_db : ExecCommand :=
  {| user := VStr "app"; cmd := VStr "/opt/init"; policy := "INITIAL" |}.

Definition detached : ExecCommand :=
  {| user := VNone; cmd := VStr "detached"; policy := "RESTART" |}.
End Samples.

(** ** Further views of the map and of the runner's calls *)

Module MapViews.
Import Map.

(** The properties [name] and [assignments]. *)
Definition name (self : ContainerMap) : string := _name self.

Definition assignments (self : ContainerMap) : list ContainerAssignment := (_map self).*2.

(** The names under which the map holds container assignments. *)
Definition container_names (self : ContainerMap) : list string := (_map self).*1.

(** The two keys [get] and [get_existing] answer themselves. *)
Definition reserved (key : string) : Prop := key = "host" ∨ key = "volumes".

(** The keys of the data handed to [update]. *)
Definition data_keys {raw : Type} (other : option (list (string * raw)))
    (kwargs : list (string * raw)) : list string :=
  (default [] other).*1 ++ kwargs.*1.

(** An iteration over [instances] that meets no empty name. *)
Definition named (instances : list string) : Prop := Forall (λ i, i ≠ "") instances.
End MapViews.

Module RunnerViews.
Import Runner.

Definition is_exec_call (c : call) : bool :=
  match c with
  | exec_create _ | exec_start _ => true
  | _ => false
  end.

(** The [exec_create] call of each command, in list order. *)
Definition expected_creates {daemon : Type}
    (get_exec_create_kwargs : ActionConfig daemon → string → value → value → gmap string value)
    (action : ActionConfig daemon) (c_name : string) (run_cmds : list ExecCommand) :
    list call :=
  map (λ run_cmd, exec_create (get_exec_create_kwargs action c_name (cmd run_cmd) (user run_cmd)))
      run_cmds.

(** [first ; second] on runs: the second starts where the first returned,
    and does not start when the first raised. *)
Definition and_then {daemon B C : Type} (first : M daemon B) (second : M daemon C) :
    M daemon C :=
  λ w, match first w with
       | (Return _, w') => second w'
       | (Raise e, w') => (Raise e, w')
       end.
End RunnerViews.

(** ** Further sample inputs *)

Module MoreSamples.
Import Map Runner Samples.

(** A redis container with two instances, a shared path and an attached
    socket volume; a server that uses the socket and links to one redis
    instance; the map holding both. *)
Definition redis : ContainerAssignment :=
  {| image := Some "redis"; instances := ["cache"; "queue"]; shares := ["/data"];
     binds := []; uses := []; attaches := ["redis_socket"]; links_to := [];
     networks := [] |}.

Definition server : ContainerAssignment :=
  {| image := Some "server"; instances := []; shares := []; binds := [];
     uses := ["redis_socket"]; attaches := [];
     links_to := [{| container := "redis.cache"; alias := Some "cache" |}];
     networks := [] |}.

Definition fleet : ContainerMap :=
  {| _name := "main"; _host := ∅;
     _volumes := {[ "redis_socket" := "/var/run/redis" ]};
     _map := [("redis", redis); ("server", server)] |}.

(** Two containers attaching the same volume. *)
Definition twin : ContainerAssignment :=
  {| image := None; instances := []; shares := []; binds := []; uses := [];
     attaches := ["sock"]; links_to := []; networks := [] |}.

Definition twins : ContainerMap :=
  {| _name := "main"; _host := ∅; _volumes := {[ "sock" := "/run/sock" ]};
     _map := [("left", twin); ("right", twin)] |}.

(** Data for [update]: two containers and the host shares; the reserved keys
    alone. *)
Definition fleet_data : list (string * ContainerAssignment) :=
  [("redis", redis); ("host", empty_assignment); ("server", server)].

Definition reserved_data : list (string * ContainerAssignment) :=
  [("host", empty_assignment); ("volumes", empty_assignment)].

Definition blank : ContainerMap :=
  {| _name := "main"; _host := ∅; _volumes := ∅; _map := [] |}.

(** A daemon whose [exec_create] answers without an id, and one whose [wait]
    times out. *)
Definition idless_client (c : call) (served : nat) : result response * nat :=
  match c with
  | exec_create _ => (Return (RDict {[ "Warnings" := VNone ]}), S served)
  | _ => (Return RNone, S served)
  end.

Definition slow_client (c : call) (served : nat) : result response * nat :=
  match c with
  | wait _ _ => (Raise Timeout, S served)
  | _ => (Return RNone, S served)
  end.

Definition action_on (daemon_client : call → nat → result response * nat) (sig : value) :
    ActionConfig nat :=
  {| client := daemon_client;
     config := {| Config.stop_signal := sig; Config.exec_commands := None |} |}.
End MoreSamples.

(** * Properties *)

(** ** Python sets *)

Module PySetFacts.
Import PySet.

Section facts.
Context {A : Type} `{EqDecision A}.
Implicit Types (s seen xs other : list A) (x : A).

Lemma elem_of_distinct_from seen xs x :
  x ∈ distinct_from seen xs ↔ x ∈ xs ∧ x ∉ seen.
Proof.
  revert seen. induction xs as [|y r IH]; intros seen; simpl.
  - split; [intros H0; inversion H0 | intros [H0 _]; inversion H0].
  - destruct (decide (y ∈ seen)) as [Hy|Hy].
    + rewrite IH, elem_of_cons. split; [tauto|].
      intros [[->|Hx] Hs]; [contradiction | tauto].
    + rewrite elem_of_cons, IH, !elem_of_cons. split.
      * intros [->|[Hx Hs]]; [tauto|]. split; [tauto|]. intros Hc. apply Hs. by right.
      * intros [[->|Hx] Hs]; [by left|].
        destruct (decide (x = y)) as [->|Hne]; [by left|].
        right. split; [done|]. intros [?|?]; [done|contradiction].
Qed.

Lemma NoDup_distinct_from seen xs : NoDup (distinct_from seen xs).
Proof.
  revert seen. induction xs as [|y r IH]; intros seen; simpl.
  - constructor.
  - destruct (decide (y ∈ seen)); [apply IH|].
    constructor; [|apply IH].
    rewrite elem_of_distinct_from. intros [_ Hn]. apply Hn. by left.
Qed.

Lemma distinct_from_ext seen seen' xs :
  (∀ x, x ∈ seen ↔ x ∈ seen') → distinct_from seen xs = distinct_from seen' xs.
Proof.
  revert seen seen'. induction xs as [|y r IH]; intros seen seen' Hext; simpl; [done|].
  destruct (decide (y ∈ seen)) as [Hy|Hy], (decide (y ∈ seen')) as [Hy'|Hy'].
  - by apply IH.
  - destruct Hy'. by apply Hext.
  - destruct Hy. by apply Hext.
  - f_equal. apply IH. intros x. rewrite !elem_of_cons, Hext. tauto.
Qed.

Lemma elem_of_of_list xs x : x ∈ of_list xs ↔ x ∈ xs.
Proof.
  unfold of_list. rewrite elem_of_distinct_from. split; [tauto|].
  intros Hx. split; [done|]. intros Hc. inversion Hc.
Qed.

Lemma NoDup_of_list xs : NoDup (of_list xs).
Proof. apply NoDup_distinct_from. Qed.

Lemma elem_of_difference s other x :
  x ∈ difference s other ↔ x ∈ s ∧ x ∉ other.
Proof. unfold difference. rewrite list_elem_of_filter. tauto. Qed.

Lemma NoDup_difference s other : NoDup s → NoDup (difference s other).
Proof. apply NoDup_filter. Qed.

Lemma elem_of_union s other x : x ∈ union s other ↔ x ∈ s ∨ x ∈ other.
Proof.
  unfold union. rewrite elem_of_app, elem_of_distinct_from.
  destruct (decide (x ∈ s)); tauto.
Qed.

Lemma nil_iff_no_elem (l : list A) : l = [] ↔ ∀ x, x ∉ l.
Proof.
  split; [intros -> x Hx; inversion Hx|].
  destruct l as [|y l]; [done|]. intros Hall. destruct (Hall y). by left.
Qed.

Section order.
Variable set_iter : list A → list A.
Hypothesis set_iter_ok : iteration_order set_iter.

Lemma elem_of_set_iter s x : x ∈ set_iter s ↔ x ∈ s.
Proof. by rewrite (set_iter_ok s). Qed.

Lemma NoDup_set_iter s : NoDup s → NoDup (set_iter s).
Proof. by rewrite (set_iter_ok s). Qed.
End order.
End facts.

Lemma iteration_order_id {A} : iteration_order (A:=A) (λ s, s).
Proof. by intros s. Qed.

Lemma iteration_order_rev {A} : iteration_order (A:=A) (@rev A).
Proof. intros s. symmetry. apply Permutation_rev. Qed.
End PySetFacts.

(** ** [merge_dependency] *)

Module ResolverSpec.
Import PySet PySetFacts Resolver.

Section merge.
Context {A : Type} `{EqDecision A}.
Implicit Types (dep parents block : list A) (resolve_parent : A → option (list A)).

Lemma falsy_children (parent_dep : option (list A)) :
  truthy parent_dep = false → children parent_dep = [].
Proof. by destruct parent_dep as [[|? ?]|]. Qed.

Lemma append_new_distinct dep (cs : list A) :
  foldl append_new dep cs = dep ++ distinct_from dep cs.
Proof.
  revert dep. induction cs as [|c cs IH]; intros dep; simpl.
  - by rewrite app_nil_r.
  - unfold append_new at 2. destruct (decide (c ∈ dep)); [apply IH|].
    rewrite IH, <- app_assoc. simpl. do 2 f_equal.
    apply distinct_from_ext. intros x. rewrite elem_of_app, !elem_of_cons.
    rewrite elem_of_nil. tauto.
Qed.

Lemma merged_first_seen resolve_parent parents dep :
  merged resolve_parent dep parents
    (foldl (λ dep parent, foldl append_new dep (children (resolve_parent parent)))
           dep parents).
Proof.
  revert dep. induction parents as [|p ps IH]; intros dep; simpl; [constructor|].
  rewrite append_new_distinct.
  eapply merged_parent; [apply NoDup_distinct_from | | apply IH].
  intros x. apply elem_of_distinct_from.
Qed.

Lemma merged_prefix resolve_parent dep parents result :
  merged resolve_parent dep parents result → ∃ tail, result = dep ++ tail.
Proof.
  induction 1 as [dep|dep p ps block result _ _ _ [tail ->]].
  - exists []. by rewrite app_nil_r.
  - exists (block ++ tail). by rewrite app_assoc.
Qed.

Lemma merged_NoDup resolve_parent dep parents result :
  merged resolve_parent dep parents result → NoDup dep → NoDup result.
Proof.
  induction 1 as [dep|dep p ps block result Hnd Hblock _ IH]; [done|].
  intros Hdep. apply IH, NoDup_app. split; [done|]. split; [|done].
  intros x Hx Hb. apply Hblock in Hb. tauto.
Qed.

Lemma merged_Permutation resolve_parent dep1 parents result1 :
  merged resolve_parent dep1 parents result1 →
  ∀ dep2 result2, merged resolve_parent dep2 parents result2 →
  dep1 ≡ₚ dep2 → result1 ≡ₚ result2.
Proof.
  induction 1 as [dep1|dep1 p ps block1 result1 Hnd1 Hb1 _ IH];
    intros dep2 result2 H2 Hperm; inversion H2 as [|? ? ? block2 ? Hnd2 Hb2 Hrest]; subst.
  - done.
  - apply (IH _ _ Hrest). apply Permutation_app; [done|].
    apply NoDup_Permutation; [done..|].
    intros x. rewrite Hb1, Hb2, Hperm. tauto.
Qed.

Section order.
Variable set_iter : list A → list A.
Hypothesis set_iter_ok : iteration_order set_iter.

Lemma merge_step_block resolve_parent dep parent :
  ∃ block, merge_step set_iter resolve_parent dep parent = dep ++ block ∧
    NoDup block ∧
    ∀ x, x ∈ block ↔ x ∈ children (resolve_parent parent) ∧ x ∉ dep.
Proof.
  unfold merge_step. destruct (truthy (resolve_parent parent)) eqn:Ht.
  - eexists. split; [done|]. split.
    + apply NoDup_set_iter, NoDup_difference, NoDup_of_list; done.
    + intros x. by rewrite (elem_of_set_iter _ set_iter_ok), elem_of_difference, elem_of_of_list.
  - exists []. rewrite app_nil_r, (falsy_children _ Ht). split; [done|].
    split; [constructor|]. intros x. rewrite !elem_of_nil. tauto.
Qed.

Lemma merged_foldl resolve_parent parents dep :
  merged resolve_parent dep parents (foldl (merge_step set_iter resolve_parent) dep parents).
Proof.
  revert dep. induction parents as [|p ps IH]; intros dep; simpl; [constructor|].
  destruct (merge_step_block resolve_parent dep p) as (block & -> & Hnd & Hblock).
  by eapply merged_parent.
Qed.
End order.
End merge.

(** C4.  Whatever [resolve_parent] returns and in whatever order sets are
    iterated, [merge_dependency] returns a list without duplicates whenever
    [parents] holds none. *)
Theorem merge_dependency_NoDup {A : Type} `{EqDecision A}
    (set_iter : list A → list A) (item : A)
    (resolve_parent : A → option (list A)) (parents : list A) :
  iteration_order set_iter →
  NoDup parents →
  NoDup (merge_dependency set_iter item resolve_parent parents).
Proof.
  intros Hiter Hnd. unfold merge_dependency.
  by eapply merged_NoDup; [apply merged_foldl|].
Qed.

(** C2, as the code has it.  [merge_dependency] returns the parents first,
    in the order given; then each parent in turn contributes the members of
    its resolved dependencies that the list lacks, each once, in the order
    the set iteration visits them.  The result therefore holds the same
    elements as the first-seen merge, each as often, and is a function of
    the inputs and of the iteration order. *)
Theorem merge_dependency_blocks {A : Type} `{EqDecision A}
    (set_iter : list A → list A) (item : A)
    (resolve_parent : A → option (list A)) (parents : list A) :
  iteration_order set_iter →
  (∃ tail, merge_dependency set_iter item resolve_parent parents = parents ++ tail) ∧
  merged resolve_parent parents parents
    (merge_dependency set_iter item resolve_parent parents) ∧
  merge_dependency set_iter item resolve_parent parents
    ≡ₚ first_seen_merge resolve_parent parents.
Proof.
  intros Hiter. unfold merge_dependency.
  pose proof (merged_foldl set_iter Hiter resolve_parent parents parents) as Hm.
  split; [by eapply merged_prefix|]. split; [done|].
  eapply merged_Permutation; [exact Hm | apply merged_first_seen | done].
Qed.

(** Where sets iterate in insertion order the two merges coincide. *)
Lemma difference_distinct_from {A : Type} `{EqDecision A} (dep seen cs : list A) :
  difference (distinct_from seen cs) dep = distinct_from (seen ++ dep) cs.
Proof.
  unfold difference. revert seen.
  induction cs as [|c cs IHc]; intros seen; simpl; [done|].
  destruct (decide (c ∈ seen)) as [Hc|Hc].
  - rewrite decide_True by (apply elem_of_app; by left). by apply IHc.
  - destruct (decide (c ∈ dep)) as [Hd|Hd].
    + rewrite decide_True by (apply elem_of_app; by right).
      rewrite filter_cons_False by tauto. rewrite IHc.
      apply distinct_from_ext. intros x. simpl. rewrite elem_of_cons, !elem_of_app.
      split; [|tauto]. intros [->|?]; tauto.
    + rewrite decide_False by (rewrite elem_of_app; tauto).
      rewrite filter_cons_True by done. f_equal. by rewrite IHc.
Qed.

Lemma merge_dependency_insertion_order {A : Type} `{EqDecision A} (item : A)
    (resolve_parent : A → option (list A)) (parents : list A) :
  merge_dependency (λ s, s) item resolve_parent parents
  = first_seen_merge resolve_parent parents.
Proof.
  unfold merge_dependency, first_seen_merge.
  generalize parents at 1 3 as dep. induction parents as [|p ps IH]; intros dep; simpl; [done|].
  rewrite <- IH. f_equal. rewrite append_new_distinct. unfold merge_step.
  destruct (truthy (resolve_parent p)) eqn:Ht.
  - f_equal. unfold of_list. by rewrite difference_distinct_from.
  - by rewrite (falsy_children _ Ht), app_nil_r.
Qed.
End ResolverSpec.

(** ** [ContainerMap]: names, lookups and dependency items *)

Module MapSpec.
Import PySet PySetFacts Map.

(** C8.  [cname] joins the map name and the container name with a dot, and
    appends a dot and the instance name when an instance is given; an
    instance is given when the argument is a non-empty name ([if
    instance:]). *)
Theorem cname_format (self : ContainerMap) (container : string) :
  cname self container None = (_name self ++ "." ++ container)%string ∧
  cname self container (Some "") = (_name self ++ "." ++ container)%string ∧
  ∀ instance, instance ≠ "" →
    cname self container (Some instance)
    = (_name self ++ "." ++ container ++ "." ++ instance)%string.
Proof.
  split; [done|]. split; [done|].
  intros instance Hi. unfold cname. by rewrite decide_False.
Qed.

Lemma map_get_None (l : list (string * ContainerAssignment)) (name : string) :
  (∀ a, (name, a) ∉ l) → map_get l name = None.
Proof.
  induction l as [|[k v] l IH]; intros Hno; simpl; [done|].
  destruct (decide (k = name)) as [->|Hne].
  - destruct (Hno v). by left.
  - apply IH. intros a Ha. apply (Hno a). by right.
Qed.

(** C9.  Whatever assignments the map holds, ["host"] and ["volumes"] are
    answered by [get] and by [get_existing] with the host assignment and
    the volume aliases; any other name without an assignment is answered by
    [get_existing] with [None], the map staying as it is. *)
Theorem reserved_names (DictMap_get : ContainerMap → string → item * ContainerMap)
    (self : ContainerMap) :
  get DictMap_get self "host" = (HostItem (_host self), self) ∧
  get DictMap_get self "volumes" = (VolumesItem (_volumes self), self) ∧
  get_existing self "host" = (HostItem (_host self), self) ∧
  get_existing self "volumes" = (VolumesItem (_volumes self), self) ∧
  ∀ name, name ≠ "host" → name ≠ "volumes" →
    (∀ a, (name, a) ∉ _map self) →
    get_existing self name = (NoneItem, self).
Proof.
  repeat split.
  intros name Hh Hv Hno. unfold get_existing.
  rewrite !decide_False by done. by rewrite map_get_None.
Qed.

(** The dictionary [attached] maps a volume to its owner. *)
Lemma dict_of_pairs_snoc (pairs : list (string * string)) (k v : string) :
  dict_of_pairs (pairs ++ [(k, v)]) = <[k := v]> (dict_of_pairs pairs).
Proof. unfold dict_of_pairs. by rewrite foldl_app. Qed.

Lemma dict_of_pairs_lookup (pairs : list (string * string)) (a : string) :
  dict_of_pairs pairs !! a = last (filter (λ p, p.1 = a) pairs).*2.
Proof.
  induction pairs as [|[k v] pairs IH] using rev_ind; [done|].
  rewrite dict_of_pairs_snoc, filter_app, fmap_app, lookup_insert.
  rewrite filter_cons, filter_nil. simpl. destruct (decide (k = a)) as [->|Hne].
  - simpl. by rewrite last_snoc.
  - simpl. by rewrite app_nil_r.
Qed.

Lemma last_app_or {B} (l1 l2 : list B) :
  last (l1 ++ l2) = match last l2 with Some x => Some x | None => last l1 end.
Proof.
  induction l2 as [|x l2 _] using rev_ind.
  - by rewrite app_nil_r.
  - by rewrite app_assoc, !last_snoc.
Qed.

Lemma last_attached_by (c_name a : string) (bs : list string) :
  last (filter (λ p, p.1 = a) (map (λ b, (b, c_name)) bs)).*2
  = if decide (a ∈ bs) then Some c_name else None.
Proof.
  induction bs as [|b bs IH] using rev_ind; [done|].
  rewrite map_app, filter_app, fmap_app, last_app_or, IH. simpl.
  rewrite filter_cons, filter_nil. simpl.
  destruct (decide (b = a)) as [->|Hne]; simpl.
  - rewrite decide_True; [done|]. apply elem_of_app. right. by left.
  - destruct (decide (a ∈ bs)) as [Hin|Hnin].
    + rewrite decide_True; [done|]. apply elem_of_app. by left.
    + rewrite decide_False; [done|].
      rewrite elem_of_app, list_elem_of_singleton. intros [?|?]; [done|]. by apply Hne.
Qed.

Lemma attached_owner (self : ContainerMap) (a : string) :
  attached self !! a = owner self a.
Proof.
  unfold attached, owner, attached_pairs. rewrite dict_of_pairs_lookup.
  induction (_map self) as [|[c_name c] l IH] using rev_ind; [done|].
  rewrite !flat_map_app, filter_app, fmap_app, !last_app_or, IH. simpl.
  rewrite !app_nil_r, last_attached_by.
  by destruct (decide (a ∈ attaches c)).
Qed.

Lemma dep_set_direct_deps (self : ContainerMap) (c : ContainerAssignment) :
  dep_set self c = direct_deps self c.
Proof.
  unfold dep_set, direct_deps, used_node. do 2 f_equal.
  apply map_ext. intros u. by rewrite attached_owner.
Qed.

Lemma elem_of_flat_map {B C} (f : B → list C) (l : list B) (y : C) :
  y ∈ flat_map f l ↔ ∃ x, x ∈ l ∧ y ∈ f x.
Proof.
  rewrite list_elem_of_In, in_flat_map. setoid_rewrite list_elem_of_In. done.
Qed.

(** C1, as the code has it.  [dependency_items] yields, for every container
    of the map, one pair for the bare container name and one for each of its
    instance names; the second component of each is the container's edge
    set: every [uses] entry, replaced by the owner when it names an attached
    volume, and the container side of every [links_to] entry.  Networks add
    no edge. *)
Theorem dependency_items_spec (self : ContainerMap) :
  (∀ node deps, (node, deps) ∈ dependency_items self ↔
     ∃ c_name c, (c_name, c) ∈ _map self ∧ node_of c_name c node ∧
                 deps = direct_deps self c) ∧
  length (dependency_items self)
  = sum_list (map (λ entry, S (length (instances entry.2))) (_map self)).
Proof.
  split.
  - intros node deps. unfold dependency_items. rewrite elem_of_flat_map. split.
    + intros ([c_name c] & Hin & Hnode). exists c_name, c. split; [done|].
      rewrite dep_set_direct_deps in Hnode.
      apply elem_of_app in Hnode as [Hi|Hb].
      * apply list_elem_of_fmap in Hi as (i & Heq & Hi). inversion Heq; subst.
        split; [|done]. right. by exists i.
      * apply list_elem_of_singleton in Hb. inversion Hb; subst. split; [by left|done].
    + intros (c_name & c & Hin & Hnode & ->). exists (c_name, c). split; [done|].
      rewrite dep_set_direct_deps. apply elem_of_app.
      destruct Hnode as [->|(i & Hi & ->)].
      * right. by apply list_elem_of_singleton.
      * left. apply list_elem_of_fmap. by exists i.
  - unfold dependency_items. generalize (dep_set self) as deps. intros deps.
    induction (_map self) as [|[c_name c] l IH]; [done|].
    cbn [flat_map map sum_list snd]. rewrite !length_app, length_map, IH.
    cbn [length]. unfold id. lia.
Qed.
End MapSpec.

(** ** [check_integrity] and the constructor *)

Module IntegritySpec.
Import PySet PySetFacts Map MapSpec.

Lemma nonempty_false {B} (l : list B) : nonempty l = false ↔ l = [].
Proof. by destruct l. Qed.

Lemma nonempty_true {B} (l : list B) : nonempty l = true ↔ l ≠ [].
Proof. by destruct l. Qed.

Lemma count_cons (x y : string) (l : list string) :
  count x (y :: l) = (if decide (y = x) then 1 else 0) + count x l.
Proof. unfold count. rewrite filter_cons. by destruct (decide (y = x)). Qed.

Lemma count_absent (x : string) (l : list string) : x ∉ l → count x l = 0.
Proof.
  induction l as [|y l IH]; [done|]. rewrite not_elem_of_cons, count_cons.
  intros [Hne Hl]. rewrite decide_False by done. by rewrite IH.
Qed.

Lemma count_present (x : string) (l : list string) : x ∈ l → (1 ≤ count x l)%nat.
Proof.
  induction l as [|y l IH]; [intros Hx; inversion Hx|].
  rewrite count_cons. destruct (decide (y = x)); [lia|].
  intros [?|Hl]%elem_of_cons; [congruence|]. specialize (IH Hl). lia.
Qed.

Lemma NoDup_count (l : list string) : NoDup l ↔ ∀ x, x ∈ l → (count x l ≤ 1)%nat.
Proof.
  induction l as [|y l IH].
  - split; [intros _ x Hx; inversion Hx | constructor].
  - rewrite NoDup_cons, IH. split.
    + intros [Hy Hl] x Hx. rewrite count_cons. destruct (decide (y = x)) as [->|Hne].
      * by rewrite count_absent.
      * apply elem_of_cons in Hx as [?|Hx]; [congruence|]. by apply Hl.
    + intros Hall. split.
      * intros Hy. pose proof (Hall y (list_elem_of_here _ _)) as Hc.
        rewrite count_cons, decide_True in Hc by done.
        pose proof (count_present _ _ Hy). lia.
      * intros x Hx. pose proof (Hall x (list_elem_of_further _ _ _ Hx)) as Hc.
        rewrite count_cons in Hc. lia.
Qed.

Lemma elem_of_keys (d : gmap string string) (k : string) :
  k ∈ keys d ↔ is_Some (d !! k).
Proof.
  unfold keys. rewrite list_elem_of_fmap. split.
  - intros ([k' v] & -> & Hin). apply elem_of_map_to_list in Hin. by exists v.
  - intros [v Hv]. exists (k, v). split; [done|]. by apply elem_of_map_to_list.
Qed.

Lemma difference_nil {B} `{EqDecision B} (s other : list B) :
  difference s other = [] ↔ ∀ x, x ∈ s → x ∈ other.
Proof.
  rewrite nil_iff_no_elem. setoid_rewrite elem_of_difference. split.
  - intros Hall x Hx. destruct (decide (x ∈ other)); [done|]. destruct (Hall x). done.
  - intros Hall x [Hx Hn]. by apply Hn, Hall.
Qed.

(** The per-container lists of [check_integrity], chained. *)
Section chains.
Variable self : ContainerMap.
Let items := map (λ '(k, v), _get_container_items k v) (_map self).

Lemma chain_instances : concat (map ci_instances items) = instance_names self.
Proof.
  unfold items, instance_names. induction (_map self) as [|[k v] l IH]; [done|].
  simpl. by rewrite IH.
Qed.

Lemma chain_used : concat (map ci_used items) = used_names self.
Proof.
  unfold items, used_names. induction (_map self) as [|[k v] l IH]; [done|].
  simpl. by rewrite IH.
Qed.

Lemma chain_attached : concat (map ci_attached items) = attached_names self.
Proof.
  unfold items, attached_names. induction (_map self) as [|[k v] l IH]; [done|].
  simpl. by rewrite IH.
Qed.

Lemma chain_shared : concat (map ci_shared items) = shared_names self.
Proof.
  unfold items, shared_names. induction (_map self) as [|[k v] l IH]; [done|].
  simpl. by rewrite IH.
Qed.

Lemma chain_binds : concat (map ci_binds items) = bound_names self.
Proof.
  unfold items, bound_names. induction (_map self) as [|[k v] l IH]; [done|].
  simpl. by rewrite IH.
Qed.

Lemma chain_links : concat (map ci_links items) = linked_names self.
Proof.
  unfold items, linked_names. induction (_map self) as [|[k v] l IH]; [done|].
  simpl. by rewrite IH.
Qed.
End chains.

(** [check_integrity] on a map with at least one container, in terms of
    these lists. *)
Lemma check_integrity_unfold (set_iter : list string → list string)
    (self : ContainerMap) (check_duplicates : bool) :
  _map self ≠ [] →
  check_integrity set_iter self check_duplicates =
    if check_duplicates && nonempty (duplicated set_iter self) then
      Raise (ValueError (message
        "Duplicated shared or attached volumes found with name(s): "
        (String.concat ", " (duplicated set_iter self))))
    else if nonempty (missing_shares self) then
      Raise (ValueError (message
        "No shared or attached volumes found for used volume(s): "
        (String.concat ", " (set_iter (missing_shares self)))))
    else if nonempty (missing_binds self) then
      Raise (ValueError (message
        "No host share found for mapped volume(s): "
        (String.concat ", " (set_iter (missing_binds self)))))
    else if nonempty (missing_names self) then
      Raise (ValueError (message
        "No volume name-path-assignments found for volume(s): "
        (String.concat ", " (set_iter (missing_names self)))))
    else if nonempty (missing_links self) then
      Raise (ValueError (message
        "No container instance found for link(s): "
        (String.concat ", " (set_iter (missing_links self)))))
    else Return ().
Proof.
  intros Hne. unfold check_integrity, duplicated, missing_shares, missing_binds,
    missing_names, missing_links.
  rewrite concat_app, chain_instances, chain_used, chain_attached, chain_shared,
    chain_binds, chain_links.
  destruct (_map self) as [|[k v] l] eqn:E; [done|]. reflexivity.
Qed.
(** What each list holds. *)
Lemma elem_of_duplicated (set_iter : list string → list string) (self : ContainerMap) x :
  iteration_order set_iter →
  x ∈ duplicated set_iter self ↔
  1 < count x (shared_names self ++ attached_names self).
Proof.
  intros Hiter. unfold duplicated.
  rewrite list_elem_of_filter, (elem_of_set_iter _ Hiter), elem_of_of_list.
  split; [tauto|]. intros Hc. split; [done|].
  destruct (decide (x ∈ shared_names self ++ attached_names self)) as [|Hn]; [done|].
  rewrite (count_absent _ _ Hn) in Hc. lia.
Qed.

Lemma elem_of_missing_shares (self : ContainerMap) x :
  x ∈ missing_shares self ↔
  x ∈ used_names self ∧ x ∉ shared_names self ++ attached_names self.
Proof. unfold missing_shares. by rewrite elem_of_difference, !elem_of_of_list. Qed.

Lemma elem_of_missing_binds (self : ContainerMap) x :
  x ∈ missing_binds self ↔ x ∈ bound_names self ∧ _host self !! x = None.
Proof.
  unfold missing_binds.
  by rewrite elem_of_difference, !elem_of_of_list, elem_of_keys, eq_None_not_Some.
Qed.

Lemma elem_of_missing_names (self : ContainerMap) x :
  x ∈ missing_names self ↔
  (x ∈ bound_names self ∨ x ∈ attached_names self) ∧ _volumes self !! x = None.
Proof.
  unfold missing_names.
  by rewrite elem_of_difference, elem_of_union, !elem_of_of_list, elem_of_keys,
    eq_None_not_Some.
Qed.

Lemma elem_of_missing_links (self : ContainerMap) x :
  x ∈ missing_links self ↔ x ∈ linked_names self ∧ x ∉ instance_names self.
Proof. unfold missing_links. by rewrite elem_of_difference, !elem_of_of_list. Qed.

Lemma elem_of_used_names (self : ContainerMap) x :
  x ∈ used_names self ↔ ∃ c_name c, (c_name, c) ∈ _map self ∧ x ∈ uses c.
Proof.
  unfold used_names. rewrite elem_of_flat_map. split.
  - intros ([c_name c] & Hin & Hx). by exists c_name, c.
  - intros (c_name & c & Hin & Hx). by exists (c_name, c).
Qed.

Lemma elem_of_attached_names (self : ContainerMap) x :
  x ∈ attached_names self ↔ ∃ c_name c, (c_name, c) ∈ _map self ∧ x ∈ attaches c.
Proof.
  unfold attached_names. rewrite elem_of_flat_map. split.
  - intros ([c_name c] & Hin & Hx). by exists c_name, c.
  - intros (c_name & c & Hin & Hx). by exists (c_name, c).
Qed.

Lemma elem_of_bound_names (self : ContainerMap) x :
  x ∈ bound_names self ↔
  ∃ c_name c b, (c_name, c) ∈ _map self ∧ b ∈ binds c ∧ x = volume b.
Proof.
  unfold bound_names. rewrite elem_of_flat_map. split.
  - intros ([c_name c] & Hin & Hx). apply list_elem_of_fmap in Hx as (b & -> & Hb).
    by exists c_name, c, b.
  - intros (c_name & c & b & Hin & Hb & ->). exists (c_name, c). split; [done|].
    apply list_elem_of_fmap. by exists b.
Qed.

Lemma elem_of_linked_names (self : ContainerMap) x :
  x ∈ linked_names self ↔
  ∃ c_name c l, (c_name, c) ∈ _map self ∧ l ∈ links_to c ∧ x = container l.
Proof.
  unfold linked_names. rewrite elem_of_flat_map. split.
  - intros ([c_name c] & Hin & Hx). apply list_elem_of_fmap in Hx as (l & -> & Hl).
    by exists c_name, c, l.
  - intros (c_name & c & l & Hin & Hl & ->). exists (c_name, c). split; [done|].
    apply list_elem_of_fmap. by exists l.
Qed.

(** Each list is empty exactly when its invariant holds. *)
Lemma duplicated_nil (set_iter : list string → list string) (self : ContainerMap) :
  iteration_order set_iter →
  duplicated set_iter self = [] ↔ unique_volumes self.
Proof.
  intros Hiter. unfold unique_volumes. rewrite NoDup_count, nil_iff_no_elem.
  setoid_rewrite (elem_of_duplicated _ _ _ Hiter). split.
  - intros Hall x _. specialize (Hall x). lia.
  - intros Hall x Hc.
    destruct (decide (x ∈ shared_names self ++ attached_names self)) as [Hx|Hx].
    + specialize (Hall x Hx). lia.
    + rewrite (count_absent _ _ Hx) in Hc. lia.
Qed.

Lemma missing_shares_nil (self : ContainerMap) :
  missing_shares self = [] ↔ uses_resolve self.
Proof.
  rewrite nil_iff_no_elem. unfold uses_resolve. split.
  - intros Hall c_name c u Hin Hu.
    destruct (decide (u ∈ shared_names self)); [by left|].
    destruct (decide (u ∈ attached_names self)); [by right|].
    destruct (Hall u). apply elem_of_missing_shares. split.
    + apply elem_of_used_names. by exists c_name, c.
    + rewrite elem_of_app. tauto.
  - intros Hres x [Hu Hn]%elem_of_missing_shares.
    apply elem_of_used_names in Hu as (c_name & c & Hin & Hu).
    apply Hn, elem_of_app. by eapply Hres.
Qed.

Lemma missing_binds_nil (self : ContainerMap) :
  missing_binds self = [] ↔ binds_in_host self.
Proof.
  rewrite nil_iff_no_elem. unfold binds_in_host. split.
  - intros Hall c_name c b Hin Hb. apply not_eq_None_Some. intros Hnone.
    apply (Hall (volume b)), elem_of_missing_binds. split; [|done].
    apply elem_of_bound_names. by exists c_name, c, b.
  - intros Hres x [Hb Hnone]%elem_of_missing_binds.
    apply elem_of_bound_names in Hb as (c_name & c & b & Hin & Hb & ->).
    destruct (Hres _ _ _ Hin Hb) as [v Hv]. congruence.
Qed.

Lemma missing_names_nil (self : ContainerMap) :
  missing_names self = [] ↔ aliases_in_volumes self.
Proof.
  rewrite nil_iff_no_elem. unfold aliases_in_volumes. split.
  - intros Hall c_name c Hin. split.
    + intros a Ha. apply not_eq_None_Some. intros Hnone.
      apply (Hall a), elem_of_missing_names. split; [|done]. right.
      apply elem_of_attached_names. by exists c_name, c.
    + intros b Hb. apply not_eq_None_Some. intros Hnone.
      apply (Hall (volume b)), elem_of_missing_names. split; [|done]. left.
      apply elem_of_bound_names. by exists c_name, c, b.
  - intros Hres x [[Hb|Ha] Hnone]%elem_of_missing_names.
    + apply elem_of_bound_names in Hb as (c_name & c & b & Hin & Hb & ->).
      destruct (Hres _ _ Hin) as [_ Hbinds]. destruct (Hbinds b Hb) as [v Hv]. congruence.
    + apply elem_of_attached_names in Ha as (c_name & c & Hin & Ha).
      destruct (Hres _ _ Hin) as [Hatt _]. destruct (Hatt x Ha) as [v Hv]. congruence.
Qed.

Lemma missing_links_nil (self : ContainerMap) :
  missing_links self = [] ↔ links_resolve self.
Proof.
  rewrite nil_iff_no_elem. unfold links_resolve. split.
  - intros Hall c_name c l Hin Hl.
    destruct (decide (container l ∈ instance_names self)) as [|Hn]; [done|].
    destruct (Hall (container l)). apply elem_of_missing_links. split; [|done].
    apply elem_of_linked_names. by exists c_name, c, l.
  - intros Hres x [Hl Hn]%elem_of_missing_links.
    apply elem_of_linked_names in Hl as (c_name & c & l & Hin & Hl & ->).
    by eapply Hn, Hres.
Qed.

(** On a map with at least one container, [check_integrity] returns exactly
    when the five invariants hold. *)
Lemma check_integrity_Return (set_iter : list string → list string)
    (self : ContainerMap) :
  iteration_order set_iter →
  _map self ≠ [] →
  check_integrity set_iter self true = Return () ↔ integrity self.
Proof.
  intros Hiter Hne. rewrite (check_integrity_unfold _ _ _ Hne). unfold integrity.
  rewrite <- (duplicated_nil _ _ Hiter), <- missing_shares_nil, <- missing_binds_nil,
    <- missing_names_nil, <- missing_links_nil, <- !nonempty_false.
  simpl. destruct (nonempty (duplicated set_iter self)),
    (nonempty (missing_shares self)), (nonempty (missing_binds self)),
    (nonempty (missing_names self)), (nonempty (missing_links self));
    simpl; split; try done; intros H; decompose [and] H; done.
Qed.

(** Nothing but [ValueError] comes out of [check_integrity]. *)
Lemma check_integrity_Raise (set_iter : list string → list string)
    (self : ContainerMap) (check_duplicates : bool) (e : exn) :
  check_integrity set_iter self check_duplicates = Raise e → exn_class e = "ValueError".
Proof.
  destruct (decide (_map self = [])) as [Hnil|Hne].
  - unfold check_integrity. rewrite Hnil. simpl. by intros [= <-].
  - rewrite (check_integrity_unfold _ _ _ Hne).
    repeat case_match; by intros [= <-].
Qed.

(** A map that breaks an invariant is refused. *)
Lemma check_integrity_violation (set_iter : list string → list string)
    (self : ContainerMap) :
  iteration_order set_iter →
  ¬ integrity self →
  raises (check_integrity set_iter self true) "ValueError".
Proof.
  intros Hiter Hbad.
  destruct (check_integrity set_iter self true) as [[]|e] eqn:E.
  - destruct Hbad. destruct (decide (_map self = [])) as [Hnil|Hne].
    + unfold check_integrity in E. by rewrite Hnil in E.
    + by apply (check_integrity_Return _ _ Hiter Hne).
  - exists e. split; [done|]. by eapply check_integrity_Raise.
Qed.

(** The error names the offending entries: the message lists, separated by
    commas, every name of the first non-empty list, each once. *)
Lemma check_integrity_message (set_iter : list string → list string)
    (self : ContainerMap) (e : exn) :
  iteration_order set_iter →
  _map self ≠ [] →
  check_integrity set_iter self true = Raise e →
  ∃ text names, e = ValueError (message text (String.concat ", " names)) ∧
    names ≠ [] ∧ NoDup names ∧
    (names ≡ₚ duplicated set_iter self ∨ names ≡ₚ missing_shares self ∨
     names ≡ₚ missing_binds self ∨ names ≡ₚ missing_names self ∨
     names ≡ₚ missing_links self).
Proof.
  intros Hiter Hne. rewrite (check_integrity_unfold _ _ _ Hne). simpl.
  assert (∀ s : list string, s ≠ [] → set_iter s ≠ []) as Hnz.
  { intros s Hs Hnil. apply Hs, Permutation_nil. by rewrite <- (Hiter s), Hnil. }
  destruct (nonempty (duplicated set_iter self)) eqn:E1.
  { intros [= <-]. eexists _, _. split; [done|]. apply nonempty_true in E1.
    split; [done|]. split; [|by left].
    apply NoDup_filter, NoDup_set_iter, NoDup_of_list; done. }
  destruct (nonempty (missing_shares self)) eqn:E2.
  { intros [= <-]. eexists _, _. split; [done|]. apply nonempty_true in E2.
    split; [by apply Hnz|]. split; [|right; left; apply Hiter].
    apply NoDup_set_iter, NoDup_difference, NoDup_of_list; done. }
  destruct (nonempty (missing_binds self)) eqn:E3.
  { intros [= <-]. eexists _, _. split; [done|]. apply nonempty_true in E3.
    split; [by apply Hnz|]. split; [|right; right; left; apply Hiter].
    apply NoDup_set_iter, NoDup_difference, NoDup_of_list; done. }
  destruct (nonempty (missing_names self)) eqn:E4.
  { intros [= <-]. eexists _, _. split; [done|]. apply nonempty_true in E4.
    split; [by apply Hnz|]. split; [|right; right; right; left; apply Hiter].
    apply NoDup_set_iter, NoDup_difference; [done|].
    apply NoDup_app. split; [apply NoDup_of_list|]. split; [|apply NoDup_distinct_from].
    intros x Hx. rewrite elem_of_distinct_from. tauto. }
  destruct (nonempty (missing_links self)) eqn:E5; [|done].
  intros [= <-]. eexists _, _. split; [done|]. apply nonempty_true in E5.
  split; [by apply Hnz|]. split; [|right; right; right; right; apply Hiter].
  apply NoDup_set_iter, NoDup_difference, NoDup_of_list; done.
Qed.

Lemma integrity_without_containers (name : string) (host volumes : gmap string string) :
  integrity {| _name := name; _host := host; _volumes := volumes; _map := [] |}.
Proof.
  unfold integrity, unique_volumes, uses_resolve, binds_in_host,
    aliases_in_volumes, links_resolve. simpl.
  repeat split; try constructor; intros; exfalso; eapply not_elem_of_nil; eassumption.
Qed.

(** C3, at the input where the code departs from it.  A map without any
    container meets the five invariants, and [check_integrity] raises all
    the same: the unpacking of the transposed per-container lists fails. *)
Theorem check_integrity_without_containers (set_iter : list string → list string)
    (name : string) (host volumes : gmap string string) (check_duplicates : bool) :
  integrity {| _name := name; _host := host; _volumes := volumes; _map := [] |} ∧
  raises (check_integrity set_iter
            {| _name := name; _host := host; _volumes := volumes; _map := [] |}
            check_duplicates) "ValueError".
Proof. split; [apply integrity_without_containers | by eexists]. Qed.

Section constructor.
Context {raw : Type}.
Variable set_iter : list string → list string.
Variable assignment_update : ContainerAssignment → raw → ContainerAssignment.
Variable host_update : gmap string string → raw → gmap string string.
Variable volumes_update : gmap string string → raw → gmap string string.

(** Without data, or with the check switched off, the constructor checks
    nothing. *)
Lemma init_unchecked (name : string) (initial : option (list (string * raw)))
    (check : bool) (kwargs : list (string * raw)) :
  (truthy_dict raw initial || nonempty kwargs) && check = false →
  __init__ set_iter raw assignment_update host_update volumes_update
    name initial check kwargs
  = Return (constructed raw assignment_update host_update volumes_update name initial kwargs).
Proof. intros Hc. unfold __init__. by rewrite Hc. Qed.
End constructor.

(** C7, as the code has it.  Given initial data, positional or keyword, and
    the check left on, the constructor runs [check_integrity] on the updated
    map before it returns: it returns the map when the check returns, and
    raises what the check raises; a map that breaks an invariant makes it
    raise [ValueError]. *)
Theorem init_checks_integrity {raw : Type} (set_iter : list string → list string)
    (assignment_update : ContainerAssignment → raw → ContainerAssignment)
    (host_update volumes_update : gmap string string → raw → gmap string string)
    (name : string) (initial : option (list (string * raw)))
    (kwargs : list (string * raw)) :
  iteration_order set_iter →
  truthy_dict raw initial || nonempty kwargs = true →
  __init__ set_iter raw assignment_update host_update volumes_update
    name initial true kwargs
  = match check_integrity set_iter
            (constructed raw assignment_update host_update volumes_update name initial kwargs)
            true with
    | Raise e => Raise e
    | Return _ =>
        Return (constructed raw assignment_update host_update volumes_update name initial kwargs)
    end ∧
  (¬ integrity (constructed raw assignment_update host_update volumes_update
                  name initial kwargs) →
   raises (__init__ set_iter raw assignment_update host_update volumes_update
             name initial true kwargs) "ValueError").
Proof.
  intros Hiter Hdata. unfold __init__. rewrite Hdata. simpl.
  fold (constructed raw assignment_update host_update volumes_update name initial kwargs).
  split; [done|]. intros Hbad.
  destruct (check_integrity_violation _ _ Hiter Hbad) as (e & -> & Hcls).
  by exists e.
Qed.
End IntegritySpec.

(** ** The runner mixins *)

Module RunnerSpec.
Import Runner.

Section runner.
Context {daemon : Type}.
Variable get_stop_kwargs :
  ActionConfig daemon → string → gmap string value → gmap string value.
Variable get_exec_create_kwargs :
  ActionConfig daemon → string → value → value → gmap string value.
Variable get_exec_start_kwargs :
  ActionConfig daemon → string → value → gmap string value.

(** The test of [signal_stop] holds exactly for the default signals. *)
Lemma stops_by_default_test (sig : value) :
  falsy sig || bool_decide (sig = VStr "SIGTERM") || bool_decide (sig = VInt SIGTERM) = true
  ↔ stops_by_default sig.
Proof.
  rewrite !orb_true_iff, !bool_decide_eq_true. split.
  - intros [[Hf| ->]| ->]; [by apply no_signal | apply SIGTERM_by_name | apply SIGTERM_by_number].
  - intros [sig' Hf| |]; tauto.
Qed.

Lemma created_app (l1 l2 : list (call * result response)) :
  created (l1 ++ l2) = created l1 ++ created l2.
Proof. unfold created. by rewrite fmap_app, filter_app. Qed.

Lemma created_command_calls (action : ActionConfig daemon) (c_name : string)
    (run_cmd : ExecCommand) (block : list (call * result response)) :
  command_calls daemon get_exec_create_kwargs get_exec_start_kwargs action c_name run_cmd block →
  created block
  = [exec_create (get_exec_create_kwargs action c_name (cmd run_cmd) (user run_cmd))].
Proof. by intros [r Hr|d e_id r Hid]. Qed.
End runner.

(** C5.  With no stop signal configured, or SIGTERM by name or by number,
    [signal_stop] makes one call, the client's [stop] with the assembled
    arguments; a [Timeout] raised by it becomes a warning and the run
    returns.  With any other signal it calls [kill] with that signal and,
    once [kill] has returned, [wait] with the timeout of the stop arguments,
    10 when they hold none. *)
Theorem signal_stop_protocol {daemon : Type}
    (get_stop_kwargs : ActionConfig daemon → string → gmap string value → gmap string value)
    (action : ActionConfig daemon) (c_name : string) (kwargs : gmap string value)
    (w : world daemon) :
  let sig := Config.stop_signal (config daemon action) in
  let stop_kwargs := get_stop_kwargs action c_name kwargs in
  let run := signal_stop daemon get_stop_kwargs action c_name kwargs w in
  (stops_by_default sig →
     let stopped := client daemon action (stop stop_kwargs) (state daemon w) in
     state daemon run.2 = stopped.2 ∧
     trace daemon run.2 = trace daemon w ++ [(stop stop_kwargs, stopped.1)] ∧
     match stopped.1 with
     | Return _ => run.1 = Return () ∧ log daemon run.2 = log daemon w
     | Raise Timeout =>
         run.1 = Return () ∧
         log daemon run.2
         = log daemon w ++ [(WARNING, "Container did not stop in time - sent SIGKILL.")]
     | Raise e => run.1 = Raise e ∧ log daemon run.2 = log daemon w
     end) ∧
  (¬ stops_by_default sig →
     let killed := client daemon action (kill c_name sig) (state daemon w) in
     let timeout := default (VInt 10) (stop_kwargs !! "timeout") in
     let waited := client daemon action (wait c_name timeout) killed.2 in
     match killed.1 with
     | Raise e =>
         run.1 = Raise e ∧ state daemon run.2 = killed.2 ∧
         trace daemon run.2 = trace daemon w ++ [(kill c_name sig, killed.1)]
     | Return _ =>
         state daemon run.2 = waited.2 ∧
         trace daemon run.2
         = trace daemon w ++ [(kill c_name sig, killed.1); (wait c_name timeout, waited.1)] ∧
         run.1 = match waited.1 with Return _ => Return () | Raise e => Raise e end
     end).
Proof.
  intros sig stop_kwargs run. subst run. unfold signal_stop. fold sig. fold stop_kwargs.
  split; intros Hsig.
  - apply stops_by_default_test in Hsig. rewrite Hsig.
    unfold except_Timeout, bind, client_call, ret, log_record. simpl.
    destruct (client daemon action (stop stop_kwargs) (state daemon w)) as [[r|e] d]; simpl.
    + done.
    + by destruct e.
  - rewrite <- stops_by_default_test in Hsig. apply not_true_is_false in Hsig.
    rewrite Hsig. unfold bind, client_call, ret, log_record. simpl.
    destruct (client daemon action (kill c_name sig) (state daemon w)) as [[r|e] d1]; simpl.
    + destruct (client daemon action (wait c_name (default (VInt 10) (stop_kwargs !! "timeout"))) d1)
        as [[r2|e2] d2]; simpl; by rewrite <- app_assoc.
    + done.
Qed.

(** C10.  Without configured commands, missing or empty,
    [exec_container_commands] returns at once: no call is made, and the
    daemon, the trace and the log are what they were. *)
Theorem exec_container_commands_nothing {daemon : Type}
    (get_exec_create_kwargs : ActionConfig daemon → string → value → value → gmap string value)
    (get_exec_start_kwargs : ActionConfig daemon → string → value → gmap string value)
    (action : ActionConfig daemon) (c_name : string) (w : world daemon) :
  Config.exec_commands (config daemon action) = None ∨
  Config.exec_commands (config daemon action) = Some [] →
  exec_container_commands daemon get_exec_create_kwargs get_exec_start_kwargs action c_name w
  = (Return (), w).
Proof. intros [Hc|Hc]; unfold exec_container_commands; by rewrite Hc. Qed.

(** C6.  With a client whose exec calls return, [exec_commands] returns
    after adding to the trace, for each command in list order, one
    [exec_create] with the arguments assembled from that command's [cmd] and
    [user], followed at once by the [exec_start] on the id of the create
    result when that result is not empty, and by nothing when it is. *)
Theorem exec_commands_calls {daemon : Type}
    (get_exec_create_kwargs : ActionConfig daemon → string → value → value → gmap string value)
    (get_exec_start_kwargs : ActionConfig daemon → string → value → gmap string value)
    (action : ActionConfig daemon) (c_name : string) (run_cmds : list ExecCommand)
    (w : world daemon) :
  exec_client_returns daemon action →
  ∃ blocks w',
    exec_commands daemon get_exec_create_kwargs get_exec_start_kwargs action c_name run_cmds w
    = (Return (), w') ∧
    Forall2 (command_calls daemon get_exec_create_kwargs get_exec_start_kwargs action c_name)
            run_cmds blocks ∧
    trace daemon w' = trace daemon w ++ concat blocks ∧
    created (concat blocks)
    = map (λ run_cmd,
             exec_create (get_exec_create_kwargs action c_name (cmd run_cmd) (user run_cmd)))
          run_cmds.
Proof.
  intros [Hcreate Hstart]. revert w.
  induction run_cmds as [|run_cmd rest IH]; intros w.
  - exists [], w. simpl. rewrite app_nil_r. repeat split; constructor.
  - cbn [exec_commands]. unfold bind at 1. unfold log_record at 1. unfold bind at 1.
    unfold client_call at 1. cbn [state trace log].
    destruct (Hcreate (get_exec_create_kwargs action c_name (cmd run_cmd) (user run_cmd))
                (state daemon w)) as (r & d1 & Hc & Hid).
    rewrite Hc. unfold bind at 1. destruct (truthy r) eqn:Ht.
    + destruct (Hid eq_refl) as (dict & e_id & -> & Hlook).
      unfold subscript, bind, ret, log_record, client_call. rewrite Hlook. cbn [state trace log].
      destruct (Hstart (get_exec_start_kwargs action c_name e_id) d1) as (r2 & d2 & Hs).
      rewrite Hs.
      match goal with |- context [exec_commands _ _ _ _ _ rest ?w1] =>
        destruct (IH w1) as (blocks & w' & Hrun & Hblocks & Htrace & Hcreated) end.
      unfold bind in Hrun. 
      eexists (_ :: blocks), w'. split; [exact Hrun|]. split.
      { constructor; [|done]. by eapply created_and_started. }
      split.
      { rewrite Htrace. cbn [trace concat]. by rewrite <- !app_assoc. }
      cbn [concat map]. rewrite created_app, Hcreated. done.
    + unfold log_record at 1.
      match goal with |- context [exec_commands _ _ _ _ _ rest ?w1] =>
        destruct (IH w1) as (blocks & w' & Hrun & Hblocks & Htrace & Hcreated) end.
      eexists (_ :: blocks), w'. split; [exact Hrun|]. split.
      { constructor; [|done]. by eapply created_not_started. }
      split.
      { rewrite Htrace. cbn [trace concat]. by rewrite <- !app_assoc. }
      cbn [concat map]. rewrite created_app, Hcreated. done.
Qed.
End RunnerSpec.

(** ** The properties on the sample inputs *)

Module Cases.
Import PySet PySetFacts Resolver ResolverSpec Map MapSpec IntegritySpec Runner RunnerSpec Samples.

(** C4 on the parents ["p"] and ["q"], sets iterating in reverse. *)
Lemma merge_dependency_NoDup_sample :
  NoDup (merge_dependency (@rev string) "item" resolve_p ["p"; "q"]).
Proof.
  apply (merge_dependency_NoDup (@rev string) "item" resolve_p ["p"; "q"]).
  - apply iteration_order_rev.
  - apply NoDup_cons. split; [by intros [?|?%elem_of_nil]%elem_of_cons|].
    apply NoDup_singleton.
Defined.

(** C2 as the code has it, on the parent ["p"], sets iterating in reverse. *)
Lemma merge_dependency_blocks_sample :
  (∃ tail, merge_dependency (@rev string) "item" resolve_p ["p"] = ["p"] ++ tail) ∧
  merged resolve_p ["p"] ["p"] (merge_dependency (@rev string) "item" resolve_p ["p"]) ∧
  merge_dependency (@rev string) "item" resolve_p ["p"] ≡ₚ first_seen_merge resolve_p ["p"].
Proof.
  apply (merge_dependency_blocks (@rev string) "item" resolve_p ["p"]).
  apply iteration_order_rev.
Defined.

(** C2 as stated fails: the dependencies of ["p"] are resolved to ["b"] then
    ["a"], and a set that iterates ["a"] before ["b"] (as the hash order of
    CPython 2.7 does for these two names) makes [merge_dependency] append
    them in that order, not in the order in which they were first seen. *)
Lemma merge_dependency_not_first_seen :
  iteration_order (@rev string) ∧
  merge_dependency (@rev string) "item" resolve_p ["p"] = ["p"; "a"; "b"] ∧
  first_seen_merge resolve_p ["p"] = ["p"; "b"; "a"].
Proof. split; [apply iteration_order_rev|]. split; reflexivity. Qed.

(** C1 as stated fails: the network of [web] is no member of the edge set
    that [dependency_items] yields for it. *)
Lemma dependency_items_omit_networks :
  dependency_items network_map = [("web", ∅)] ∧
  "backend" ∈ direct_deps_with_networks network_map web ∧
  Forall (λ pair, "backend" ∉ pair.2) (dependency_items network_map).
Proof.
  assert (dependency_items network_map = [("web", ∅)]) as Hitems.
  { unfold dependency_items, dep_set. simpl. by rewrite union_empty_l_L. }
  split; [done|]. split.
  - unfold direct_deps_with_networks. simpl. set_solver.
  - rewrite Hitems. constructor; [|constructor]. simpl. set_solver.
Qed.

(** C8 on the map [main]. *)
Lemma cname_format_sample :
  cname network_map "redis" None = "main.redis" ∧
  cname network_map "redis" (Some "") = "main.redis" ∧
  cname network_map "redis" (Some "cache") = "main.redis.cache".
Proof.
  destruct (cname_format network_map "redis") as (Hnone & Hempty & Hsome).
  split; [exact Hnone|]. split; [exact Hempty|]. by apply (Hsome "cache").
Defined.

(** C9 on the map [main]: ["web"] has an assignment, ["db"] has none. *)
Lemma reserved_names_sample :
  get (DictMap_get) network_map "host" = (HostItem ∅, network_map) ∧
  get_existing network_map "volumes" = (VolumesItem ∅, network_map) ∧
  get_existing network_map "db" = (NoneItem, network_map).
Proof.
  destruct (reserved_names DictMap_get network_map) as (Hh & _ & _ & Hv & Hother).
  split; [exact Hh|]. split; [exact Hv|]. apply Hother; [done..|].
  intros a [[=]|[]%elem_of_nil]%elem_of_cons.
Defined.

(** A map holding a host share and no container is refused. *)
Lemma check_integrity_host_only :
  integrity {| _name := "main"; _host := {[ "root" := "/var/lib/app" ]}; _volumes := ∅;
               _map := [] |} ∧
  check_integrity (λ s, s)
    {| _name := "main"; _host := {[ "root" := "/var/lib/app" ]}; _volumes := ∅; _map := [] |}
    true
  = Raise (ValueError "need more than 0 values to unpack").
Proof. split; [apply integrity_without_containers | done]. Qed.

(** C7 as stated fails: the map whose only container uses an unknown volume
    is refused with a [ValueError]; there is no [IntegrityError]. *)
Lemma init_raises_ValueError :
  ¬ integrity (constructed ContainerAssignment replace_assignment keep keep "main" worker_only []) ∧
  __init__ (λ s, s) ContainerAssignment replace_assignment keep keep
    "main" worker_only true []
  = Raise (ValueError "No shared or attached volumes found for used volume(s): data.") ∧
  ¬ raises (__init__ (λ s, s) ContainerAssignment replace_assignment keep keep
              "main" worker_only true []) "IntegrityError".
Proof.
  assert (__init__ (λ s, s) ContainerAssignment replace_assignment keep keep
            "main" worker_only true []
          = Raise (ValueError "No shared or attached volumes found for used volume(s): data."))
    as Hrun by (vm_compute; reflexivity).
  split; [|split; [exact Hrun|]].
  - intros (_ & Huses & _).
    destruct (Huses "worker" worker "data") as [Hin|Hin]; [by left | by left | |];
      vm_compute in Hin; inversion Hin.
  - rewrite Hrun. intros (e & [= <-] & Hcls). discriminate Hcls.
Qed.

(** C7 as the code has it, on the same input. *)
Lemma init_checks_integrity_sample :
  __init__ (λ s, s) ContainerAssignment replace_assignment keep keep
    "main" worker_only true []
  = match check_integrity (λ s, s)
            (constructed ContainerAssignment replace_assignment keep keep "main" worker_only []) true with
    | Raise e => Raise e
    | Return _ => Return (constructed ContainerAssignment replace_assignment keep keep "main" worker_only [])
    end ∧
  (¬ integrity (constructed ContainerAssignment replace_assignment keep keep "main" worker_only []) →
   raises (__init__ (λ s, s) ContainerAssignment replace_assignment keep keep
             "main" worker_only true []) "ValueError").
Proof.
  apply (init_checks_integrity (λ s, s) replace_assignment keep keep "main" worker_only []).
  - apply iteration_order_id.
  - reflexivity.
Defined.

(** C5 on the counting daemon: without a signal the timed-out [stop] is the
    only call and leaves a warning; with SIGINT, [kill] then [wait]. *)
Lemma signal_stop_sample :
  (stops_by_default VNone ∧
   signal_stop nat stop_kwargs_of (action_with VNone None) "main.web" ∅ fresh
   = (Return (),
      {| state := 1;
         trace := [(stop {[ "container" := VStr "main.web" ]}, Raise Timeout)];
         log := [(WARNING, "Container did not stop in time - sent SIGKILL.")] |})) ∧
  (¬ stops_by_default (VStr "SIGINT") ∧
   trace nat (signal_stop nat stop_kwargs_of (action_with (VStr "SIGINT") None)
                "main.web" ∅ fresh).2
   = [(kill "main.web" (VStr "SIGINT"), Return RNone);
      (wait "main.web" (VInt 10), Return (RInt 0))]).
Proof.
  split.
  - split; [by apply no_signal|]. reflexivity.
  - assert (¬ stops_by_default (VStr "SIGINT")) as Hsig.
    { intros Hs. inversion Hs as [sig Hf| |]; discriminate. }
    split; [exact Hsig|].
    destruct (signal_stop_protocol stop_kwargs_of (action_with (VStr "SIGINT") None)
                "main.web" ∅ fresh) as [_ Hkill].
    destruct (Hkill Hsig) as (_ & Htrace & _). exact Htrace.
Defined.

(** C10 on an action without commands. *)
Lemma exec_container_commands_nothing_sample :
  exec_container_commands nat exec_create_kwargs_of exec_start_kwargs_of
    (action_with VNone (Some [])) "main.web" fresh
  = (Return (), fresh).
Proof.
  apply (exec_container_commands_nothing exec_create_kwargs_of exec_start_kwargs_of
           (action_with VNone (Some [])) "main.web" fresh).
  by right.
Defined.

Lemma counting_client_returns (sig : value) (cmds : option (list ExecCommand)) :
  exec_client_returns nat (action_with sig cmds).
Proof.
  split.
  - intros kw d. eexists _, _. split; [reflexivity|].
    destruct (decide (kw !! "cmd" = Some (VStr "detached"))); [done|].
    intros _. eexists _, _. split; [done|]. apply lookup_singleton_eq.
  - intros kw d. by eexists _, _.
Qed.

(** C6 on the counting daemon and two commands. *)
Lemma exec_commands_calls_sample :
  ∃ blocks w',
    exec_commands nat exec_create_kwargs_of exec_start_kwargs_of
      (action_with VNone None) "main.web" [init_db; detached] fresh
    = (Return (), w') ∧
    Forall2 (command_calls nat exec_create_kwargs_of exec_start_kwargs_of
               (action_with VNone None) "main.web")
            [init_db; detached] blocks ∧
    trace nat w' = trace nat fresh ++ concat blocks ∧
    created (concat blocks)
    = map (λ run_cmd,
             exec_create (exec_create_kwargs_of (action_with VNone None) "main.web"
                            (cmd run_cmd) (user run_cmd)))
          [init_db; detached].
Proof.
  apply (exec_commands_calls exec_create_kwargs_of exec_start_kwargs_of
           (action_with VNone None) "main.web" [init_db; detached] fresh).
  apply counting_client_returns.
Defined.

(** The trace of that run. *)
Lemma exec_commands_trace_sample :
  trace nat (exec_commands nat exec_create_kwargs_of exec_start_kwargs_of
               (action_with VNone None) "main.web" [init_db; detached] fresh).2
  = [(exec_create (exec_create_kwargs_of (action_with VNone None) "main.web"
                     (VStr "/opt/init") (VStr "app")),
      Return (RDict {[ "Id" := VStr "exec-1" ]}));
     (exec_start {[ "exec_id" := VStr "exec-1" ]}, Return RNone);
     (exec_create (exec_create_kwargs_of (action_with VNone None) "main.web"
                     (VStr "detached") VNone),
      Return RNone)].
Proof. vm_compute. reflexivity. Qed.
End Cases.

(** ** More on [merge_dependency] *)

Module ResolverMore.
Import PySet PySetFacts Resolver ResolverSpec.

Section merged.
Context {A : Type} `{EqDecision A}.
Implicit Types (dep parents : list A) (resolve_parent : A → option (list A)).

Lemma merged_elements resolve_parent dep parents result x :
  merged resolve_parent dep parents result →
  x ∈ result ↔ x ∈ dep ∨ ∃ p, p ∈ parents ∧ x ∈ children (resolve_parent p).
Proof.
  induction 1 as [dep|dep p ps block result Hnd Hblock _ IH].
  - split; [by left|]. intros [?|(p & Hp & _)]; [done|inversion Hp].
  - rewrite IH, elem_of_app, Hblock. split.
    + intros [[?|[Hx _]]|(q & Hq & Hx)]; [by left| |].
      * right. exists p. split; [by left|done].
      * right. exists q. split; [by right|done].
    + intros [?|(q & Hq & Hx)]; [by left; left|].
      apply elem_of_cons in Hq as [->|Hq].
      * destruct (decide (x ∈ dep)); [by left; left|]. left. by right.
      * right. by exists q.
Qed.

Lemma merged_tail resolve_parent dep parents result :
  merged resolve_parent dep parents result →
  ∃ tail, result = dep ++ tail ∧ NoDup tail ∧ ∀ x, x ∈ tail → x ∉ dep.
Proof.
  induction 1 as [dep|dep p ps block result Hnd Hblock _ (tail & -> & Htail & Hdis)].
  - exists []. rewrite app_nil_r. split; [done|]. split; [constructor|].
    intros x Hx. inversion Hx.
  - exists (block ++ tail). rewrite app_assoc. split; [done|]. split.
    + apply NoDup_app. split; [done|]. split; [|done].
      intros x Hx Ht. apply (Hdis x Ht), elem_of_app. by right.
    + intros x [Hx|Hx]%elem_of_app.
      * by apply Hblock in Hx as [_ ?].
      * intros Hd. apply (Hdis x Hx), elem_of_app. by left.
Qed.
End merged.

(** X1.  The list returned holds exactly the parents and the members of their
    resolved dependencies. *)
Theorem merge_dependency_elements {A : Type} `{EqDecision A}
    (set_iter : list A → list A) (item : A)
    (resolve_parent : A → option (list A)) (parents : list A) (x : A) :
  iteration_order set_iter →
  x ∈ merge_dependency set_iter item resolve_parent parents ↔
  x ∈ parents ∨ ∃ p, p ∈ parents ∧ x ∈ children (resolve_parent p).
Proof.
  intros Hiter. unfold merge_dependency.
  apply merged_elements, merged_foldl, Hiter.
Qed.

(** X2.  Whatever the parents are, repeated or not, what is appended after them
    holds no element twice and none of the parents. *)
Theorem merge_dependency_appended {A : Type} `{EqDecision A}
    (set_iter : list A → list A) (item : A)
    (resolve_parent : A → option (list A)) (parents : list A) :
  iteration_order set_iter →
  ∃ tail, merge_dependency set_iter item resolve_parent parents = parents ++ tail ∧
          NoDup tail ∧ ∀ x, x ∈ tail → x ∉ parents.
Proof.
  intros Hiter. unfold merge_dependency.
  eapply merged_tail, merged_foldl, Hiter.
Qed.

(** X3.  When the resolved dependencies of every parent are among the parents
    already (as when no parent has any), the parents are returned as they
    are. *)
Theorem merge_dependency_closed {A : Type} `{EqDecision A}
    (set_iter : list A → list A) (item : A)
    (resolve_parent : A → option (list A)) (parents : list A) :
  iteration_order set_iter →
  (∀ p x, p ∈ parents → x ∈ children (resolve_parent p) → x ∈ parents) →
  merge_dependency set_iter item resolve_parent parents = parents.
Proof.
  intros Hiter Hclosed. unfold merge_dependency.
  pose proof (merged_foldl set_iter Hiter resolve_parent parents parents) as Hm.
  destruct (merged_tail _ _ _ _ Hm) as (tail & Heq & _ & Hdis).
  rewrite Heq. destruct tail as [|x tail]; [by rewrite app_nil_r|].
  exfalso. apply (Hdis x); [by left|].
  assert (x ∈ foldl (merge_step set_iter resolve_parent) parents parents) as Hx.
  { rewrite Heq. apply elem_of_app. right. by left. }
  apply (merged_elements _ _ _ _ _ Hm) in Hx as [?|(p & Hp & Hc)]; [done|].
  by eapply Hclosed.
Qed.
End ResolverMore.

(** ** More on names and dependency items *)

Module MapMore.
Import PySet PySetFacts Map MapSpec IntegritySpec MapViews.

Lemma append_nil_r (a : string) : (a ++ "")%string = a.
Proof.
  induction a as [|ch a IH]; [done|].
  change (String ch a ++ "")%string with (String ch (a ++ "")%string). by rewrite IH.
Qed.

Lemma append_not_self (a x : string) : x ≠ "" → (a ++ x)%string ≠ a.
Proof.
  intros Hx Heq. rewrite <- (append_nil_r a) in Heq at 2.
  by apply (inj (String.append a)) in Heq.
Qed.

(** X4.  The daemon names of the instance names [check_integrity] works with are
    those [cname] gives for the container and each of its instances, the
    bare container where it has none. *)
Theorem cname_of_instance_names (self : ContainerMap) (c_name : string)
    (instances : list string) :
  named instances →
  map (λ node, cname self node None) (_get_instance_names c_name instances)
  = match instances with
    | [] => [cname self c_name None]
    | _ => map (λ i, cname self c_name (Some i)) instances
    end.
Proof.
  intros Hnamed. destruct instances as [|i0 rest]; [done|].
  unfold _get_instance_names. rewrite map_map.
  apply Forall_fmap_ext_1. eapply Forall_impl; [exact Hnamed|].
  intros i Hi. simpl. unfold cname. by rewrite decide_False.
Qed.

(** X5.  Within one map, one container never gets the same daemon name for two
    instances, nor for an instance and for itself. *)
Theorem cname_distinct (self : ContainerMap) (container : string) (i j : string) :
  i ≠ "" →
  (cname self container (Some i) = cname self container (Some j) → i = j) ∧
  cname self container (Some i) ≠ cname self container None.
Proof.
  intros Hi.
  assert (cname self container (Some i) ≠ cname self container None) as Hbare.
  { unfold cname. rewrite decide_False by done. simpl. intros Heq.
    apply (inj (String.append _)), (inj (String.append _)) in Heq.
    by apply append_not_self in Heq. }
  split; [|done]. destruct (decide (j = "")) as [->|Hj].
  - intros Heq. by destruct Hbare.
  - unfold cname. rewrite !decide_False by done. simpl. intros Heq.
    by do 4 apply (inj (String.append _)) in Heq.
Qed.

(** Instance names, shared names and owners are node ids. *)
Lemma container_is_node (self : ContainerMap) c_name c :
  (c_name, c) ∈ _map self → (c_name, dep_set self c) ∈ dependency_items self.
Proof.
  intros Hin. unfold dependency_items. apply elem_of_flat_map. exists (c_name, c).
  split; [done|]. apply elem_of_app. right. by left.
Qed.

Lemma instance_name_is_node (self : ContainerMap) n :
  n ∈ instance_names self → ∃ deps, (n, deps) ∈ dependency_items self.
Proof.
  unfold instance_names. rewrite elem_of_flat_map. intros ([c_name c] & Hin & Hn).
  exists (dep_set self c). unfold _get_instance_names in Hn.
  destruct (instances c) as [|i0 rest] eqn:Ei.
  - apply list_elem_of_singleton in Hn as ->. by apply container_is_node.
  - unfold dependency_items. apply elem_of_flat_map. exists (c_name, c). split; [done|].
    apply elem_of_app. left. rewrite Ei.
    apply list_elem_of_fmap in Hn as (i & -> & Hi). apply list_elem_of_fmap. by exists i.
Qed.

Lemma shared_name_is_instance (self : ContainerMap) n :
  n ∈ shared_names self → n ∈ instance_names self.
Proof.
  unfold shared_names, instance_names. rewrite !elem_of_flat_map.
  intros ([c_name c] & Hin & Hn). exists (c_name, c). split; [done|].
  destruct (nonempty (shares c) || nonempty (binds c)); [done|inversion Hn].
Qed.

Lemma owner_attaches (self : ContainerMap) a c_name :
  owner self a = Some c_name → ∃ c, (c_name, c) ∈ _map self ∧ a ∈ attaches c.
Proof.
  unfold owner. intros Hlast. apply last_Some in Hlast as (l' & Hl).
  assert (c_name ∈ flat_map (λ '(c_name, c), if decide (a ∈ attaches c) then [c_name] else [])
                     (_map self)) as Hin.
  { rewrite Hl. apply elem_of_app. right. by left. }
  apply elem_of_flat_map in Hin as ([c_name' c] & Hin & Hc).
  destruct (decide (a ∈ attaches c)); [|inversion Hc].
  apply list_elem_of_singleton in Hc as ->. by exists c.
Qed.

Lemma owner_None (self : ContainerMap) a :
  owner self a = None → a ∉ attached_names self.
Proof.
  unfold owner. intros Hlast Hin. apply last_None in Hlast.
  apply elem_of_attached_names in Hin as (c_name & c & Hin & Ha).
  assert (c_name ∈ flat_map (λ '(c_name, c), if decide (a ∈ attaches c) then [c_name] else [])
                     (_map self)) as Hc.
  { apply elem_of_flat_map. exists (c_name, c). split; [done|].
    rewrite decide_True by done. by left. }
  rewrite Hlast in Hc. inversion Hc.
Qed.

(** What [check_integrity] has verified when it returns, whether it looked
    for duplicates or not. *)
Lemma check_integrity_Return_any (set_iter : list string → list string)
    (self : ContainerMap) (check_duplicates : bool) :
  check_integrity set_iter self check_duplicates = Return () →
  _map self ≠ [] ∧ uses_resolve self ∧ binds_in_host self ∧
  aliases_in_volumes self ∧ links_resolve self.
Proof.
  destruct (decide (_map self = [])) as [Hnil|Hne].
  { unfold check_integrity. by rewrite Hnil. }
  rewrite (check_integrity_unfold _ _ _ Hne). split; [done|].
  rewrite <- missing_shares_nil, <- missing_binds_nil, <- missing_names_nil,
    <- missing_links_nil, <- !nonempty_false.
  destruct (check_duplicates && nonempty (duplicated set_iter self)); [done|].
  destruct (nonempty (missing_shares self)); [done|].
  destruct (nonempty (missing_binds self)); [done|].
  destruct (nonempty (missing_names self)); [done|].
  by destruct (nonempty (missing_links self)).
Qed.

(** X6.  On a map that [check_integrity] accepts, every dependency that
    [dependency_items] yields is itself a node that it yields. *)
Theorem dependency_items_closed (set_iter : list string → list string)
    (self : ContainerMap) (check_duplicates : bool) (node d : string)
    (deps : gset string) :
  check_integrity set_iter self check_duplicates = Return () →
  (node, deps) ∈ dependency_items self →
  d ∈ deps →
  ∃ deps', (d, deps') ∈ dependency_items self.
Proof.
  intros (_ & Huses & _ & _ & Hlinks)%check_integrity_Return_any Hnode Hd.
  unfold dependency_items in Hnode. apply elem_of_flat_map in Hnode as ([c_name c] & Hin & Hnode).
  assert (d ∈ dep_set self c) as Hdep.
  { apply elem_of_app in Hnode as [Hi|Hb].
    - apply list_elem_of_fmap in Hi as (i & [= _ ->] & _). done.
    - apply list_elem_of_singleton in Hb as [= _ ->]. done. }
  unfold dep_set in Hdep. apply base.elem_of_union in Hdep as [Hu|Hl].
  - apply elem_of_list_to_set, list_elem_of_fmap in Hu as (u & -> & Hu).
    rewrite attached_owner. destruct (owner self u) as [o|] eqn:Eo; simpl.
    + apply owner_attaches in Eo as (co & Hco & _). eexists. by apply container_is_node.
    + apply owner_None in Eo. destruct (Huses _ _ _ Hin Hu) as [Hs|Ha]; [|done].
      by apply instance_name_is_node, shared_name_is_instance.
  - apply elem_of_list_to_set, list_elem_of_fmap in Hl as (l & -> & Hl).
    by eapply instance_name_is_node, Hlinks.
Qed.

Lemma last_owner (l : list (string * ContainerAssignment)) a c_name c :
  NoDup (flat_map (λ '(_, c), attaches c) l) →
  (c_name, c) ∈ l → a ∈ attaches c →
  last (flat_map (λ '(c_name, c), if decide (a ∈ attaches c) then [c_name] else []) l)
  = Some c_name.
Proof.
  induction l as [|[k v] l IH]; intros Hnd Hin Ha; [inversion Hin|].
  simpl in Hnd. apply NoDup_app in Hnd as (_ & Hdis & Hnd).
  cbn [flat_map]. rewrite last_app_or.
  apply elem_of_cons in Hin as [[= <- <-]|Hin].
  - rewrite decide_True by done.
    assert (flat_map (λ '(c_name, c), if decide (a ∈ attaches c) then [c_name] else []) l = [])
      as ->; [|done].
    apply nil_iff_no_elem. intros x ([k' v'] & Hin' & Hx)%elem_of_flat_map.
    destruct (decide (a ∈ attaches v')) as [Ha'|]; [|inversion Hx].
    apply (Hdis a Ha). apply elem_of_flat_map. by exists (k', v').
  - by rewrite (IH Hnd Hin Ha).
Qed.

(** X7.  On a map without duplicated volume names, an attached volume has one
    owner, the container attaching it, and whoever uses the volume depends
    on that container. *)
Theorem attached_volume_owner (self : ContainerMap) (a c_name user_name : string)
    (c user : ContainerAssignment) :
  unique_volumes self →
  (c_name, c) ∈ _map self → a ∈ attaches c →
  (user_name, user) ∈ _map self → a ∈ uses user →
  attached self !! a = Some c_name ∧ c_name ∈ dep_set self user.
Proof.
  intros Huniq Hin Ha Huser Huses.
  assert (attached self !! a = Some c_name) as Hown.
  { rewrite attached_owner. unfold owner. apply (last_owner _ _ _ c); [|done..].
    unfold unique_volumes in Huniq. by apply NoDup_app in Huniq as (_ & _ & ?). }
  split; [done|]. unfold dep_set. apply base.elem_of_union. left.
  apply elem_of_list_to_set, list_elem_of_fmap. exists a. by rewrite Hown.
Qed.
End MapMore.

(** ** More on [check_integrity] *)

Module IntegrityMore.
Import PySet PySetFacts Map MapSpec IntegritySpec MapViews MapMore.

(** X8.  With the search for duplicates switched off, a map with at least one
    container is accepted exactly when the four other invariants hold,
    whether volume names repeat or not. *)
Theorem check_integrity_without_duplicate_check (set_iter : list string → list string)
    (self : ContainerMap) :
  _map self ≠ [] →
  check_integrity set_iter self false = Return () ↔
  uses_resolve self ∧ binds_in_host self ∧ aliases_in_volumes self ∧ links_resolve self.
Proof.
  intros Hne. split.
  - intros H. by apply check_integrity_Return_any in H as (_ & H).
  - rewrite (check_integrity_unfold _ _ _ Hne).
    rewrite <- missing_shares_nil, <- missing_binds_nil, <- missing_names_nil,
      <- missing_links_nil, <- !nonempty_false.
    by intros (-> & -> & -> & ->).
Qed.

(** X9.  Which error a map with at least one container gets: that of the first
    invariant it breaks, in the order duplicates, uses, binds, volume names,
    links, whatever else is wrong with it. *)
Theorem check_integrity_first_violation (set_iter : list string → list string)
    (self : ContainerMap) :
  iteration_order set_iter →
  _map self ≠ [] →
  (¬ unique_volumes self →
   check_integrity set_iter self true
   = Raise (ValueError (message
       "Duplicated shared or attached volumes found with name(s): "
       (String.concat ", " (duplicated set_iter self))))) ∧
  (unique_volumes self → ¬ uses_resolve self →
   check_integrity set_iter self true
   = Raise (ValueError (message
       "No shared or attached volumes found for used volume(s): "
       (String.concat ", " (set_iter (missing_shares self)))))) ∧
  (unique_volumes self → uses_resolve self → ¬ binds_in_host self →
   check_integrity set_iter self true
   = Raise (ValueError (message
       "No host share found for mapped volume(s): "
       (String.concat ", " (set_iter (missing_binds self)))))) ∧
  (unique_volumes self → uses_resolve self → binds_in_host self →
   ¬ aliases_in_volumes self →
   check_integrity set_iter self true
   = Raise (ValueError (message
       "No volume name-path-assignments found for volume(s): "
       (String.concat ", " (set_iter (missing_names self)))))) ∧
  (unique_volumes self → uses_resolve self → binds_in_host self →
   aliases_in_volumes self → ¬ links_resolve self →
   check_integrity set_iter self true
   = Raise (ValueError (message
       "No container instance found for link(s): "
       (String.concat ", " (set_iter (missing_links self)))))).
Proof.
  intros Hiter Hne. rewrite (check_integrity_unfold _ _ _ Hne).
  rewrite <- (duplicated_nil _ _ Hiter), <- missing_shares_nil, <- missing_binds_nil,
    <- missing_names_nil, <- missing_links_nil, <- !nonempty_false. simpl.
  destruct (nonempty (duplicated set_iter self)),
    (nonempty (missing_shares self)), (nonempty (missing_binds self)),
    (nonempty (missing_names self)), (nonempty (missing_links self));
    simpl; repeat split; intros; congruence.
Qed.
End IntegrityMore.

(** ** [update] and the data it is given *)

Module UpdateMore.
Import PySet PySetFacts Map MapSpec IntegritySpec MapViews.

Lemma map_set_keys (l : list (string * ContainerAssignment)) k a :
  (map_set l k a).*1 = l.*1.
Proof.
  induction l as [|[k' v] l IH]; [done|]. cbn [map_set].
  destruct (decide (k' = k)); [done|]. rewrite !fmap_cons. by f_equal.
Qed.

Lemma map_get_is_Some (l : list (string * ContainerAssignment)) k :
  is_Some (map_get l k) ↔ k ∈ l.*1.
Proof.
  induction l as [|[k' v] l IH]; simpl.
  - split; [by intros [? ?]|intros H; inversion H].
  - destruct (decide (k' = k)) as [->|Hne].
    + split; [intros _; by left|by eexists].
    + rewrite IH, elem_of_cons. split; [tauto|]. intros [?|?]; [congruence|done].
Qed.

Lemma map_get_map_set (l : list (string * ContainerAssignment)) k a k' :
  map_get (map_set l k a) k'
  = if decide (k = k') then (λ _, a) <$> map_get l k else map_get l k'.
Proof.
  induction l as [|[k0 v] l IH]; cbn [map_set map_get].
  - by destruct (decide (k = k')).
  - destruct (decide (k0 = k)) as [->|Hne]; cbn [map_get].
    + repeat case_decide; by simplify_eq.
    + rewrite IH. repeat case_decide; by simplify_eq.
Qed.

Lemma map_get_snoc (l : list (string * ContainerAssignment)) k v k' :
  map_get (l ++ [(k, v)]) k'
  = match map_get l k' with
    | Some x => Some x
    | None => if decide (k = k') then Some v else None
    end.
Proof.
  induction l as [|[k0 v0] l IH]; simpl; [done|].
  by destruct (decide (k0 = k')).
Qed.

Section update.
Context {raw : Type}.
Variable assignment_update : ContainerAssignment → raw → ContainerAssignment.
Variable host_update : gmap string string → raw → gmap string string.
Variable volumes_update : gmap string string → raw → gmap string string.

Local Abbreviation update_entry :=
  (update_entry raw assignment_update host_update volumes_update).
Local Abbreviation update := (update raw assignment_update host_update volumes_update).

Lemma update_foldl (self : ContainerMap) other kwargs :
  update self other kwargs = foldl update_entry self (default [] other ++ kwargs).
Proof. unfold Map.update. rewrite foldl_app. by destruct other. Qed.

Lemma update_entry_name self entry : _name (update_entry self entry) = _name self.
Proof.
  destruct entry as [k r]. unfold Map.update_entry, get, DictMap_get.
  repeat case_match; simplify_eq; done.
Qed.

(** What one entry does to the container assignments. *)
Lemma update_entry_reserved self k r :
  reserved k → _map (update_entry self (k, r)) = _map self.
Proof.
  intros [-> | ->]; unfold Map.update_entry, get; simpl; done.
Qed.

Lemma update_entry_container self k r :
  ¬ reserved k →
  _host (update_entry self (k, r)) = _host self ∧
  _volumes (update_entry self (k, r)) = _volumes self ∧
  _map (update_entry self (k, r))
  = match map_get (_map self) k with
    | Some a => map_set (_map self) k (assignment_update a r)
    | None => _map self ++ [(k, assignment_update empty_assignment r)]
    end.
Proof.
  intros Hres. unfold Map.update_entry, get, DictMap_get.
  rewrite !decide_False by (intros ->; apply Hres; by constructor).
  destruct (map_get (_map self) k) as [a|] eqn:E; simpl; [done|].
  repeat split. assert (∀ l, map_get l k = None →
    map_set (l ++ [(k, empty_assignment)]) k (assignment_update empty_assignment r)
    = l ++ [(k, assignment_update empty_assignment r)]) as Hset.
  { clear. induction l as [|[k0 v0] l IH]; simpl.
    - intros _. by rewrite decide_True.
    - destruct (decide (k0 = k)); [done|]. intros Hl. by rewrite IH. }
  by apply Hset.
Qed.

Lemma update_entry_host self k r :
  k ≠ "host" → _host (update_entry self (k, r)) = _host self.
Proof.
  intros Hk. destruct (decide (k = "volumes")) as [->|Hv].
  - done.
  - apply update_entry_container. by intros [?|?].
Qed.

Lemma update_entry_volumes self k r :
  k ≠ "volumes" → _volumes (update_entry self (k, r)) = _volumes self.
Proof.
  intros Hk. destruct (decide (k = "host")) as [->|Hv].
  - done.
  - apply update_entry_container. by intros [?|?].
Qed.

Lemma update_entry_names self k r x :
  x ∈ container_names (update_entry self (k, r)) ↔
  x ∈ container_names self ∨ (x = k ∧ ¬ reserved k).
Proof.
  unfold container_names. destruct (decide (reserved k)) as [Hres|Hres].
  - rewrite update_entry_reserved by done. tauto.
  - destruct (update_entry_container self k r Hres) as (_ & _ & ->).
    destruct (map_get (_map self) k) as [a|] eqn:E.
    + rewrite map_set_keys. split; [tauto|]. intros [?|[-> _]]; [done|].
      apply map_get_is_Some. by rewrite E.
    + rewrite fmap_app, elem_of_app. simpl. rewrite list_elem_of_singleton. tauto.
Qed.


Lemma update_entry_other self k r k' :
  k' ≠ k → map_get (_map (update_entry self (k, r))) k' = map_get (_map self) k'.
Proof.
  intros Hne. destruct (decide (reserved k)) as [Hres|Hres].
  - by rewrite update_entry_reserved.
  - destruct (update_entry_container self k r Hres) as (_ & _ & ->).
    destruct (map_get (_map self) k) as [a|] eqn:E.
    + rewrite map_get_map_set. by rewrite decide_False.
    + rewrite map_get_snoc. destruct (map_get (_map self) k'); [done|].
      by rewrite decide_False.
Qed.
End update.

(** X10.  After [update], the map holds container assignments under the names it
    held them under before and under every key of the data other than
    ["host"] and ["volumes"], and under no other name. *)
Theorem update_container_names {raw : Type}
    (assignment_update : ContainerAssignment → raw → ContainerAssignment)
    (host_update volumes_update : gmap string string → raw → gmap string string)
    (self : ContainerMap) (other : option (list (string * raw)))
    (kwargs : list (string * raw)) (x : string) :
  x ∈ container_names (update raw assignment_update host_update volumes_update
                         self other kwargs) ↔
  x ∈ container_names self ∨ (x ∈ data_keys other kwargs ∧ ¬ reserved x).
Proof.
  rewrite update_foldl. unfold data_keys. rewrite <- fmap_app.
  generalize (default [] other ++ kwargs) as data. intros data. revert self.
  induction data as [|[k r] data IH]; intros self.
  - split; [by left|]. intros [?|[H _]]; [done|inversion H].
  - cbn [foldl]. rewrite fmap_cons. cbn [fst].
    rewrite IH, update_entry_names, elem_of_cons. split.
    + intros [[?|[-> ?]]|[? ?]]; tauto.
    + intros [?|[[->|?] ?]]; tauto.
Qed.


(** X12.  [update] touches only what the keys of its data name: the name of the
    map stays; the host shares stay unless ["host"] is a key, the volume
    aliases unless ["volumes"] is one; and [get_existing] answers as before
    for every name that is not a key. *)
Theorem update_frame {raw : Type}
    (assignment_update : ContainerAssignment → raw → ContainerAssignment)
    (host_update volumes_update : gmap string string → raw → gmap string string)
    (self : ContainerMap) (other : option (list (string * raw)))
    (kwargs : list (string * raw)) :
  let self' := update raw assignment_update host_update volumes_update self other kwargs in
  name self' = name self ∧
  ("host" ∉ data_keys other kwargs → _host self' = _host self) ∧
  ("volumes" ∉ data_keys other kwargs → _volumes self' = _volumes self) ∧
  (∀ k, k ∉ data_keys other kwargs → (get_existing self' k).1 = (get_existing self k).1).
Proof.
  simpl. rewrite update_foldl. unfold data_keys. rewrite <- fmap_app.
  generalize (default [] other ++ kwargs) as data. intros data. revert self.
  induction data as [|[k r] data IH]; intros self; [done|].
  cbn [foldl]. rewrite fmap_cons. cbn [fst].
  destruct (IH (Map.update_entry raw assignment_update host_update volumes_update
                  self (k, r))) as (Hname & Hhost & Hvol & Hget).
  split; [|split; [|split]].
  - rewrite Hname. apply update_entry_name.
  - intros [Hk Hd]%not_elem_of_cons. rewrite (Hhost Hd). by apply update_entry_host.
  - intros [Hk Hd]%not_elem_of_cons. rewrite (Hvol Hd). by apply update_entry_volumes.
  - intros k' [Hk Hd]%not_elem_of_cons. rewrite (Hget k' Hd). unfold get_existing.
    destruct (decide (k' = "host")) as [->|?]; cbn [fst].
    { f_equal. by apply update_entry_host. }
    destruct (decide (k' = "volumes")) as [->|?]; cbn [fst].
    { f_equal. by apply update_entry_volumes. }
    by rewrite update_entry_other.
Qed.

(** X13.  Every key of the data other than ["host"] and ["volumes"] has an
    assignment afterwards: [get_existing] finds one. *)
Theorem update_then_get_existing {raw : Type}
    (assignment_update : ContainerAssignment → raw → ContainerAssignment)
    (host_update volumes_update : gmap string string → raw → gmap string string)
    (self : ContainerMap) (other : option (list (string * raw)))
    (kwargs : list (string * raw)) (k : string) :
  k ∈ data_keys other kwargs → ¬ reserved k →
  ∃ a, get_existing (update raw assignment_update host_update volumes_update
                       self other kwargs) k
       = (AssignmentItem a,
          update raw assignment_update host_update volumes_update self other kwargs).
Proof.
  intros Hk Hres.
  assert (k ∈ container_names (update raw assignment_update host_update volumes_update
                                 self other kwargs)) as Hin.
  { rewrite update_foldl. unfold data_keys in Hk. rewrite <- fmap_app in Hk.
    revert Hk. generalize (default [] other ++ kwargs) as data. intros data. revert self.
    assert (∀ data self, k ∈ container_names self →
      k ∈ container_names (foldl (Map.update_entry raw assignment_update host_update
                                    volumes_update) self data)) as Hkeep.
    { clear. intros data. induction data as [|[k0 r0] data IH]; intros self Hin; [done|].
      cbn [foldl]. apply IH, update_entry_names. by left. }
    induction data as [|[k0 r0] data IH]; intros self Hk; [inversion Hk|].
    cbn [foldl]. rewrite fmap_cons in Hk. cbn [fst] in Hk.
    apply elem_of_cons in Hk as [->|Hk]; [|by apply IH].
    apply Hkeep, update_entry_names. by right. }
  apply map_get_is_Some in Hin as [a Ha]. exists a. unfold get_existing.
  rewrite !decide_False by (intros ->; apply Hres; by constructor).
  by rewrite Ha.
Qed.

(** X14.  Data that names only ["host"] and ["volumes"] leaves the map without a
    container, and the constructor, checking it, raises [ValueError]. *)
Theorem init_without_containers {raw : Type} (set_iter : list string → list string)
    (assignment_update : ContainerAssignment → raw → ContainerAssignment)
    (host_update volumes_update : gmap string string → raw → gmap string string)
    (name : string) (initial : option (list (string * raw)))
    (kwargs : list (string * raw)) :
  truthy_dict raw initial || nonempty kwargs = true →
  Forall reserved (data_keys initial kwargs) →
  assignments (constructed raw assignment_update host_update volumes_update
                 name initial kwargs) = [] ∧
  raises (__init__ set_iter raw assignment_update host_update volumes_update
            name initial true kwargs) "ValueError".
Proof.
  intros Hdata Hres.
  assert (_map (constructed raw assignment_update host_update volumes_update
                  name initial kwargs) = []) as Hnil.
  { unfold constructed. rewrite update_foldl. unfold data_keys in Hres.
    rewrite <- fmap_app in Hres. revert Hres.
    generalize (default [] initial ++ kwargs) as data. intros data.
    generalize (eq_refl : _map {| _name := name; _host := ∅; _volumes := ∅; _map := [] |} = []).
    generalize {| _name := name; _host := ∅; _volumes := ∅; _map := [] |} as self.
    induction data as [|[k r] data IH]; intros self Hself Hres; [done|].
    cbn [foldl]. rewrite fmap_cons in Hres. cbn [fst] in Hres.
    apply Forall_cons in Hres as [Hk Hres]. apply IH; [|done].
    by rewrite update_entry_reserved. }
  split; [unfold assignments; by rewrite Hnil|].
  unfold __init__. rewrite Hdata. simpl.
  fold (constructed raw assignment_update host_update volumes_update name initial kwargs).
  unfold check_integrity. rewrite Hnil. simpl. by eexists.
Qed.
End UpdateMore.

(** ** More on the runner mixins *)

Module RunnerMore.
Import Runner RunnerSpec RunnerViews.

Section runner.
Context {daemon : Type}.
Variable get_exec_create_kwargs :
  ActionConfig daemon → string → value → value → gmap string value.
Variable get_exec_start_kwargs :
  ActionConfig daemon → string → value → gmap string value.

Lemma created_cons_create kw (r : result response) (l : list (call * result response)) :
  created ((exec_create kw, r) :: l) = exec_create kw :: created l.
Proof. unfold created. rewrite fmap_cons. by rewrite filter_cons_True. Qed.

Lemma created_cons_start kw (r : result response) (l : list (call * result response)) :
  created ((exec_start kw, r) :: l) = created l.
Proof. unfold created. rewrite fmap_cons. by rewrite filter_cons_False. Qed.

(** One turn of the loop of [exec_commands], by the outcome of its calls. *)
Lemma exec_commands_cons (action : ActionConfig daemon) (c_name : string)
    (run_cmd : ExecCommand) (rest : list ExecCommand) (w : world daemon) :
  let create :=
    exec_create (get_exec_create_kwargs action c_name (cmd run_cmd) (user run_cmd)) in
  let w0 := {| state := state daemon w; trace := trace daemon w;
               log := log daemon w ++
                 [(DEBUG, "Creating exec command in container %s with user %s: %s.")] |} in
  let created_ := client daemon action create (state daemon w) in
  let w1 := {| state := created_.2; trace := trace daemon w ++ [(create, created_.1)];
               log := log daemon w0 |} in
  exec_commands daemon get_exec_create_kwargs get_exec_start_kwargs action c_name
    (run_cmd :: rest) w
  = match created_.1 with
    | Raise e => (Raise e, w1)
    | Return r =>
        if truthy r then
          match r with
          | RDict d =>
              match d !! "Id" with
              | Some e_id =>
                  let start := exec_start (get_exec_start_kwargs action c_name e_id) in
                  let started := client daemon action start created_.2 in
                  let w2 := {| state := started.2;
                               trace := trace daemon w1 ++ [(start, started.1)];
                               log := log daemon w1 ++
                                 [(DEBUG, "Starting exec command with id %s.")] |} in
                  match started.1 with
                  | Raise e => (Raise e, w2)
                  | Return _ =>
                      exec_commands daemon get_exec_create_kwargs get_exec_start_kwargs
                        action c_name rest w2
                  end
              | None => (Raise (KeyError "Id"), w1)
              end
          | RInt _ => (Raise (TypeError "'int' object has no attribute '__getitem__'"), w1)
          | RNone => (Raise (TypeError "'NoneType' object has no attribute '__getitem__'"), w1)
          end
        else
          exec_commands daemon get_exec_create_kwargs get_exec_start_kwargs action c_name rest
            {| state := created_.2; trace := trace daemon w1;
               log := log daemon w1 ++
                 [(DEBUG, "Exec command was created, but did not return an id. Assuming that it has been started.")] |}
    end.
Proof.
  cbn zeta. cbn [exec_commands]. unfold bind, log_record, client_call. cbn [state trace log].
  destruct (client daemon action
              (exec_create (get_exec_create_kwargs action c_name (cmd run_cmd) (user run_cmd)))
              (state daemon w)) as [[r|e] d1]; cbn [fst snd]; [|done].
  destruct (truthy r) eqn:Ht; [|done].
  destruct r as [|z|d]; [done|done|]. unfold subscript.
  destruct (d !! "Id") as [e_id|]; [|done]. unfold ret, client_call. cbn [state trace log].
  by destruct (client daemon action (exec_start (get_exec_start_kwargs action c_name e_id)) d1)
    as [[r2|e2] d2].
Qed.
End runner.

(** X15.  Whatever the client does, [exec_commands] makes exec calls only, at most
    two for a command, and its [exec_create] calls are those of the commands
    in list order, up to the command at which the run stopped. *)
Theorem exec_commands_any_client {daemon : Type}
    (get_exec_create_kwargs : ActionConfig daemon → string → value → value → gmap string value)
    (get_exec_start_kwargs : ActionConfig daemon → string → value → gmap string value)
    (action : ActionConfig daemon) (c_name : string) (run_cmds : list ExecCommand)
    (w : world daemon) :
  ∃ new,
    trace daemon
      (exec_commands daemon get_exec_create_kwargs get_exec_start_kwargs action c_name
         run_cmds w).2
    = trace daemon w ++ new ∧
    Forall (λ entry, is_exec_call entry.1 = true) new ∧
    created new `prefix_of` expected_creates get_exec_create_kwargs action c_name run_cmds ∧
    (length new ≤ 2 * length run_cmds)%nat.
Proof.
  revert w. induction run_cmds as [|run_cmd rest IH]; intros w.
  - exists []. cbn. rewrite app_nil_r. repeat split; [constructor | done | lia].
  - rewrite exec_commands_cons. cbn zeta. cbn [expected_creates map length].
    fold (expected_creates get_exec_create_kwargs action c_name rest).
    set (create := exec_create (get_exec_create_kwargs action c_name (cmd run_cmd) (user run_cmd))).
    destruct (client daemon action create (state daemon w)) as [[r|e] d1]; cbn [fst snd].
    2:{ exists [(create, Raise e)]. cbn [trace snd]. split; [done|]. split.
        { by repeat constructor. }
        split; [|cbn; lia]. subst create. rewrite created_cons_create. apply prefix_cons, prefix_nil. }
    destruct (truthy r) eqn:Ht.
    2:{ match goal with |- context [exec_commands _ _ _ _ _ rest ?w1] =>
          destruct (IH w1) as (new & -> & Hall & Hpre & Hlen) end.
        exists ((create, Return r) :: new). cbn [trace]. split; [by rewrite <- app_assoc|].
        split; [by constructor|]. split; [|cbn [length]; lia].
        subst create. rewrite created_cons_create. by apply prefix_cons. }
    destruct r as [|z|d]; [done| |].
    { exists [(create, Return (RInt z))]. cbn [trace snd]. split; [done|]. split.
      { by repeat constructor. }
      split; [|cbn; lia]. subst create. rewrite created_cons_create. apply prefix_cons, prefix_nil. }
    destruct (d !! "Id") as [e_id|].
    2:{ exists [(create, Return (RDict d))]. cbn [trace snd]. split; [done|]. split.
        { by repeat constructor. }
        split; [|cbn; lia]. subst create. rewrite created_cons_create. apply prefix_cons, prefix_nil. }
    set (start := exec_start (get_exec_start_kwargs action c_name e_id)).
    destruct (client daemon action start d1) as [[r2|e2] d2]; cbn [fst snd trace].
    + match goal with |- context [exec_commands _ _ _ _ _ rest ?w1] =>
        destruct (IH w1) as (new & -> & Hall & Hpre & Hlen) end.
      exists ((create, Return (RDict d)) :: (start, Return r2) :: new). cbn [trace].
      split; [by rewrite <- !app_assoc|]. split; [by repeat constructor|].
      split; [|cbn [length]; lia].
      subst create start. rewrite created_cons_create, created_cons_start. by apply prefix_cons.
    + exists [(create, Return (RDict d)); (start, Raise e2)].
      split; [by rewrite <- !app_assoc|]. split; [by repeat constructor|].
      split; [|cbn; lia].
      subst create start. rewrite created_cons_create, created_cons_start. apply prefix_cons, prefix_nil.
Qed.

(** X16.  Running a list of commands is running its first part and then, where
    that returned, the rest; where the first part raised, nothing of the rest
    is run. *)
Theorem exec_commands_app {daemon : Type}
    (get_exec_create_kwargs : ActionConfig daemon → string → value → value → gmap string value)
    (get_exec_start_kwargs : ActionConfig daemon → string → value → gmap string value)
    (action : ActionConfig daemon) (c_name : string) (first rest : list ExecCommand)
    (w : world daemon) :
  exec_commands daemon get_exec_create_kwargs get_exec_start_kwargs action c_name
    (first ++ rest) w
  = and_then
      (exec_commands daemon get_exec_create_kwargs get_exec_start_kwargs action c_name first)
      (exec_commands daemon get_exec_create_kwargs get_exec_start_kwargs action c_name rest)
      w.
Proof.
  revert w. induction first as [|run_cmd first IH]; intros w; [done|].
  rewrite <- app_comm_cons. unfold and_then. rewrite !exec_commands_cons. cbn zeta.
  destruct (client daemon action _ (state daemon w)) as [[r|e] d1]; cbn [fst snd]; [|done].
  destruct (truthy r).
  2:{ rewrite IH. done. }
  destruct r as [|z|d]; [done|done|].
  destruct (d !! "Id") as [e_id|]; [|done].
  destruct (client daemon action _ d1) as [[r2|e2] d2]; cbn [fst snd]; [|done].
  rewrite IH. done.
Qed.

(** X17.  A create result that is not empty and holds no ["Id"] makes the run
    raise [KeyError]: no [exec_start] is issued and no later command is
    created. *)
Theorem exec_commands_result_without_id {daemon : Type}
    (get_exec_create_kwargs : ActionConfig daemon → string → value → value → gmap string value)
    (get_exec_start_kwargs : ActionConfig daemon → string → value → gmap string value)
    (action : ActionConfig daemon) (c_name : string) (run_cmd : ExecCommand)
    (rest : list ExecCommand) (w : world daemon) (dict : gmap string value) (d1 : daemon) :
  client daemon action
    (exec_create (get_exec_create_kwargs action c_name (cmd run_cmd) (user run_cmd)))
    (state daemon w) = (Return (RDict dict), d1) →
  dict ≠ ∅ → dict !! "Id" = None →
  exec_commands daemon get_exec_create_kwargs get_exec_start_kwargs action c_name
    (run_cmd :: rest) w
  = (Raise (KeyError "Id"),
     {| state := d1;
        trace := trace daemon w ++
          [(exec_create (get_exec_create_kwargs action c_name (cmd run_cmd) (user run_cmd)),
            Return (RDict dict))];
        log := log daemon w ++
          [(DEBUG, "Creating exec command in container %s with user %s: %s.")] |}).
Proof.
  intros Hc Hne Hid. rewrite exec_commands_cons. cbn zeta. rewrite Hc. cbn [fst snd truthy].
  rewrite bool_decide_eq_false_2 by done. cbn [negb]. by rewrite Hid.
Qed.

(** X18.  The catch of [Timeout] surrounds [stop] alone: with another signal, a
    [Timeout] raised by [wait] comes out of [signal_stop], and the log holds
    no warning. *)
Theorem signal_stop_wait_timeout {daemon : Type}
    (get_stop_kwargs : ActionConfig daemon → string → gmap string value → gmap string value)
    (action : ActionConfig daemon) (c_name : string) (kwargs : gmap string value)
    (w : world daemon) (killed : response) (d1 d2 : daemon) :
  ¬ stops_by_default (Config.stop_signal (config daemon action)) →
  client daemon action (kill c_name (Config.stop_signal (config daemon action)))
    (state daemon w) = (Return killed, d1) →
  client daemon action
    (wait c_name (default (VInt 10) (get_stop_kwargs action c_name kwargs !! "timeout")))
    d1 = (Raise Timeout, d2) →
  (signal_stop daemon get_stop_kwargs action c_name kwargs w).1 = Raise Timeout ∧
  log daemon (signal_stop daemon get_stop_kwargs action c_name kwargs w).2
  = log daemon w ++
      [(DEBUG, "Sending signal %s to the container %s and waiting for stop.")].
Proof.
  intros Hsig Hkill Hwait. unfold signal_stop.
  rewrite <- stops_by_default_test in Hsig. apply not_true_is_false in Hsig.
  rewrite Hsig. unfold bind, client_call, log_record. cbn [state trace log].
  rewrite Hkill. cbn [state]. by rewrite Hwait.
Qed.
End RunnerMore.

(** ** The order in which the map yields its containers *)

Module OrderMore.
Import PySet PySetFacts Map MapSpec IntegritySpec MapViews MapMore.

Section permuted.
Variables self self' : ContainerMap.
Hypothesis same_containers : _map self ≡ₚ _map self'.
Hypothesis same_host : _host self = _host self'.
Hypothesis same_volumes : _volumes self = _volumes self'.

Lemma permuted_elem (entry : string * ContainerAssignment) :
  entry ∈ _map self ↔ entry ∈ _map self'.
Proof. by rewrite same_containers. Qed.

Lemma flat_map_Permutation {B C} (f : B → list C) (l l' : list B) :
  l ≡ₚ l' → flat_map f l ≡ₚ flat_map f l'.
Proof.
  induction 1 as [|x l l' _ IH|x y l|l l' l'' _ IH1 _ IH2]; simpl.
  - done.
  - by rewrite IH.
  - rewrite !app_assoc. f_equiv. apply Permutation_app_comm.
  - by rewrite IH1.
Qed.

Lemma permuted_shared : shared_names self ≡ₚ shared_names self'.
Proof. by apply flat_map_Permutation. Qed.

Lemma permuted_attached : attached_names self ≡ₚ attached_names self'.
Proof. by apply flat_map_Permutation. Qed.

Lemma permuted_instances : instance_names self ≡ₚ instance_names self'.
Proof. by apply flat_map_Permutation. Qed.

Lemma permuted_integrity : integrity self → integrity self'.
Proof.
  intros (Hu & Huses & Hbinds & Hvol & Hlinks). repeat split.
  - unfold unique_volumes. by rewrite <- permuted_shared, <- permuted_attached.
  - intros c_name c u Hin Hus. rewrite <- permuted_shared, <- permuted_attached.
    eapply Huses; [|done]. by apply permuted_elem.
  - intros c_name c b Hin Hb. rewrite <- same_host.
    eapply Hbinds; [|done]. by apply permuted_elem.
  - intros a Ha. rewrite <- same_volumes.
    eapply (Hvol c_name c); [|done]. by apply permuted_elem.
  - intros b Hb. rewrite <- same_volumes.
    eapply (Hvol c_name c); [|done]. by apply permuted_elem.
  - intros c_name c l Hin Hl. rewrite <- permuted_instances.
    eapply Hlinks; [|done]. by apply permuted_elem.
Qed.

Lemma permuted_owner a : unique_volumes self → owner self a = owner self' a.
Proof.
  intros Huniq.
  assert (NoDup (attached_names self)) as Hnd.
  { unfold unique_volumes in Huniq. by apply NoDup_app in Huniq as (_ & _ & ?). }
  assert (NoDup (attached_names self')) as Hnd' by (by rewrite <- permuted_attached).
  destruct (owner self a) as [c_name|] eqn:Eo.
  - apply owner_attaches in Eo as (c & Hin & Ha). symmetry.
    apply (last_owner _ _ _ c); [done| |done]. by apply permuted_elem.
  - apply owner_None in Eo. destruct (owner self' a) as [c_name|] eqn:Eo'; [|done].
    apply owner_attaches in Eo' as (c & Hin & Ha). destruct Eo.
    apply elem_of_attached_names. exists c_name, c. split; [|done]. by apply permuted_elem.
Qed.

Lemma permuted_dep_set c : unique_volumes self → dep_set self c = dep_set self' c.
Proof.
  intros Huniq. unfold dep_set. do 2 f_equal. apply map_ext. intros u.
  by rewrite !attached_owner, permuted_owner.
Qed.
End permuted.

(** X19.  Two maps that hold the same containers, in whatever order, with the same
    host shares and volume aliases, are accepted or refused together. *)
Theorem check_integrity_any_order (set_iter set_iter' : list string → list string)
    (self self' : ContainerMap) :
  iteration_order set_iter → iteration_order set_iter' →
  _map self ≡ₚ _map self' → _host self = _host self' → _volumes self = _volumes self' →
  check_integrity set_iter self true = Return () ↔
  check_integrity set_iter' self' true = Return ().
Proof.
  intros Hiter Hiter' Hperm Hhost Hvol.
  destruct (decide (_map self = [])) as [Hnil|Hne].
  - assert (_map self' = []) as Hnil'.
    { apply Permutation_nil. by rewrite <- Hperm, Hnil. }
    unfold check_integrity. by rewrite Hnil, Hnil'.
  - assert (_map self' ≠ []) as Hne'.
    { intros Hnil. apply Hne, Permutation_nil. by rewrite Hperm, Hnil. }
    rewrite (check_integrity_Return _ _ Hiter Hne), (check_integrity_Return _ _ Hiter' Hne').
    split; apply permuted_integrity; done.
Qed.

(** X20.  On a map without duplicated volume names, the pairs that
    [dependency_items] yields do not depend on the order in which the map
    yields its containers. *)
Theorem dependency_items_any_order (self self' : ContainerMap) (node : string)
    (deps : gset string) :
  unique_volumes self →
  _map self ≡ₚ _map self' →
  (node, deps) ∈ dependency_items self ↔ (node, deps) ∈ dependency_items self'.
Proof.
  intros Huniq Hperm.
  assert (unique_volumes self') as Huniq'.
  { unfold unique_volumes.
    by rewrite <- (permuted_shared self self' Hperm), <- (permuted_attached self self' Hperm). }
  assert (∀ s s', unique_volumes s → _map s ≡ₚ _map s' →
            (node, deps) ∈ dependency_items s → (node, deps) ∈ dependency_items s') as Hone.
  { clear. intros s s' Huniq Hperm. unfold dependency_items. rewrite !elem_of_flat_map.
    intros ([c_name c] & Hin & Hnode). exists (c_name, c).
    split; [by rewrite <- Hperm|]. by rewrite <- (permuted_dep_set s s' Hperm). }
  split; [by apply Hone|by apply Hone].
Qed.
End OrderMore.

(** ** The further properties on the sample inputs *)

Module MoreCases.
Import PySet PySetFacts Resolver ResolverSpec ResolverMore Map MapSpec IntegritySpec
  MapViews MapMore IntegrityMore UpdateMore OrderMore Runner RunnerSpec RunnerViews
  RunnerMore Samples MoreSamples.

Lemma merge_dependency_elements_sample :
  "a" ∈ merge_dependency (@rev string) "item" resolve_p ["p"; "q"] ↔
  "a" ∈ ["p"; "q"] ∨ ∃ p, p ∈ ["p"; "q"] ∧ "a" ∈ children (resolve_p p).
Proof.
  apply (merge_dependency_elements (@rev string) "item" resolve_p ["p"; "q"] "a").
  apply iteration_order_rev.
Defined.

Lemma merge_dependency_appended_sample :
  ∃ tail, merge_dependency (@rev string) "item" resolve_p ["p"; "p"] = ["p"; "p"] ++ tail ∧
          NoDup tail ∧ ∀ x, x ∈ tail → x ∉ ["p"; "p"].
Proof.
  apply (merge_dependency_appended (@rev string) "item" resolve_p ["p"; "p"]).
  apply iteration_order_rev.
Defined.

Lemma merge_dependency_closed_sample :
  merge_dependency (@rev string) "item" resolve_p ["p"; "a"; "b"] = ["p"; "a"; "b"].
Proof.
  apply (merge_dependency_closed (@rev string) "item" resolve_p ["p"; "a"; "b"]).
  - apply iteration_order_rev.
  - intros p x _ Hx. unfold resolve_p in Hx. destruct (decide (p = "p")); simpl in Hx.
    + apply elem_of_cons in Hx as [->|Hx]; [by right; right; left|].
      apply list_elem_of_singleton in Hx as ->. by right; left.
    + inversion Hx.
Defined.

Lemma cname_of_instance_names_sample :
  map (λ node, cname fleet node None) (_get_instance_names "redis" ["cache"; "queue"])
  = map (λ i, cname fleet "redis" (Some i)) ["cache"; "queue"].
Proof.
  apply (cname_of_instance_names fleet "redis" ["cache"; "queue"]).
  by repeat constructor.
Defined.

Lemma cname_distinct_sample :
  (cname fleet "redis" (Some "cache") = cname fleet "redis" (Some "queue") →
   "cache" = "queue") ∧
  cname fleet "redis" (Some "cache") ≠ cname fleet "redis" None.
Proof. by apply (cname_distinct fleet "redis" "cache" "queue"). Defined.

Lemma fleet_accepted : check_integrity (λ s, s) fleet true = Return ().
Proof. vm_compute. reflexivity. Qed.

Lemma fleet_socket_owner : attached fleet !! "redis_socket" = Some "redis".
Proof. vm_compute. reflexivity. Qed.

Lemma fleet_unique : unique_volumes fleet.
Proof.
  apply (check_integrity_Return (λ s, s) fleet iteration_order_id); [done|].
  apply fleet_accepted.
Qed.

Lemma dependency_items_closed_sample :
  ∃ deps', ("redis", deps') ∈ dependency_items fleet.
Proof.
  apply (dependency_items_closed (λ s, s) fleet true "server" "redis" (dep_set fleet server)).
  - apply fleet_accepted.
  - apply container_is_node. right. by left.
  - unfold dep_set. apply base.elem_of_union. left.
    apply elem_of_list_to_set, list_elem_of_fmap. exists "redis_socket".
    rewrite fleet_socket_owner. split; [done|]. by left.
Defined.

Lemma attached_volume_owner_sample :
  attached fleet !! "redis_socket" = Some "redis" ∧ "redis" ∈ dep_set fleet server.
Proof.
  apply (attached_volume_owner fleet "redis_socket" "redis" "server" redis server).
  - apply fleet_unique.
  - by left.
  - by left.
  - right. by left.
  - by left.
Defined.

Lemma twins_not_unique : ¬ unique_volumes twins.
Proof.
  unfold unique_volumes. intros Hnd. vm_compute in Hnd.
  apply NoDup_cons in Hnd as [Hnot _]. apply Hnot. by left.
Qed.

Lemma check_integrity_without_duplicate_check_sample :
  check_integrity (λ s, s) twins false = Return () ↔
  uses_resolve twins ∧ binds_in_host twins ∧ aliases_in_volumes twins ∧ links_resolve twins.
Proof. by apply (check_integrity_without_duplicate_check (λ s, s) twins). Defined.

(** The map [twins] is accepted without the search for duplicates, and
    refused with it. *)
Lemma twins_verdicts :
  check_integrity (λ s, s) twins false = Return () ∧
  check_integrity (λ s, s) twins true
  = Raise (ValueError "Duplicated shared or attached volumes found with name(s): sock.").
Proof. split; vm_compute; reflexivity. Qed.

Lemma check_integrity_first_violation_sample :
  check_integrity (λ s, s) twins true
  = Raise (ValueError (message
      "Duplicated shared or attached volumes found with name(s): "
      (String.concat ", " (duplicated (λ s, s) twins)))).
Proof.
  destruct (check_integrity_first_violation (λ s, s) twins iteration_order_id) as [Hdup _];
    [done|].
  apply Hdup, twins_not_unique.
Defined.


Lemma update_then_get_existing_sample :
  ∃ a, get_existing (update ContainerAssignment replace_assignment keep keep blank
                       (Some fleet_data) []) "server"
       = (AssignmentItem a,
          update ContainerAssignment replace_assignment keep keep blank (Some fleet_data) []).
Proof.
  apply (update_then_get_existing replace_assignment keep keep blank (Some fleet_data) []
           "server").
  - right. right. by left.
  - by intros [?|?].
Defined.

Lemma init_without_containers_sample :
  assignments (constructed ContainerAssignment replace_assignment keep keep
                 "main" (Some reserved_data) []) = [] ∧
  raises (__init__ (λ s, s) ContainerAssignment replace_assignment keep keep
            "main" (Some reserved_data) true []) "ValueError".
Proof.
  apply (init_without_containers (λ s, s) replace_assignment keep keep
           "main" (Some reserved_data) []).
  - reflexivity.
  - apply Forall_cons. split; [by left|].
    apply Forall_cons. split; [by right|]. apply Forall_nil_2.
Defined.

Lemma exec_commands_result_without_id_sample :
  exec_commands nat exec_create_kwargs_of exec_start_kwargs_of
    (action_on idless_client VNone) "main.web" [init_db; detached] fresh
  = (Raise (KeyError "Id"),
     {| state := 1;
        trace := trace nat fresh ++
          [(exec_create (exec_create_kwargs_of (action_on idless_client VNone) "main.web"
                           (cmd init_db) (user init_db)),
            Return (RDict {[ "Warnings" := VNone ]}))];
        log := log nat fresh ++
          [(DEBUG, "Creating exec command in container %s with user %s: %s.")] |}).
Proof.
  apply (exec_commands_result_without_id exec_create_kwargs_of exec_start_kwargs_of
           (action_on idless_client VNone) "main.web" init_db [detached] fresh
           {[ "Warnings" := VNone ]} 1).
  - reflexivity.
  - intros Hempty. apply (f_equal (λ m : gmap string value, m !! "Warnings")) in Hempty.
    by rewrite lookup_singleton_eq in Hempty.
  - by apply lookup_singleton_ne.
Defined.

Lemma signal_stop_wait_timeout_sample :
  (signal_stop nat stop_kwargs_of (action_on slow_client (VStr "SIGINT"))
     "main.web" ∅ fresh).1 = Raise Timeout ∧
  log nat (signal_stop nat stop_kwargs_of (action_on slow_client (VStr "SIGINT"))
             "main.web" ∅ fresh).2
  = log nat fresh ++
      [(DEBUG, "Sending signal %s to the container %s and waiting for stop.")].
Proof.
  apply (signal_stop_wait_timeout stop_kwargs_of (action_on slow_client (VStr "SIGINT"))
           "main.web" ∅ fresh RNone 1 2).
  - intros Hs. inversion Hs as [sig Hf| |]; discriminate.
  - reflexivity.
  - reflexivity.
Defined.

Lemma check_integrity_any_order_sample :
  check_integrity (λ s, s) fleet true = Return () ↔
  check_integrity (@rev string)
    {| _name := "main"; _host := _host fleet; _volumes := _volumes fleet;
       _map := [("server", server); ("redis", redis)] |} true = Return ().
Proof.
  apply (check_integrity_any_order (λ s, s) (@rev string) fleet
           {| _name := "main"; _host := _host fleet; _volumes := _volumes fleet;
              _map := [("server", server); ("redis", redis)] |}).
  - apply iteration_order_id.
  - apply iteration_order_rev.
  - apply perm_swap.
  - reflexivity.
  - reflexivity.
Defined.

Lemma dependency_items_any_order_sample :
  ("server", dep_set fleet server) ∈ dependency_items fleet ↔
  ("server", dep_set fleet server)
  ∈ dependency_items
      {| _name := "main"; _host := ∅; _volumes := ∅;
         _map := [("server", server); ("redis", redis)] |}.
Proof.
  apply (dependency_items_any_order fleet
           {| _name := "main"; _host := ∅; _volumes := ∅;
              _map := [("server", server); ("redis", redis)] |}
           "server" (dep_set fleet server)).
  - apply fleet_unique.
  - apply perm_swap.
Defined.
End MoreCases.
